(** * hp_character_appearance: counting character names across novels

    A shallow embedding of [hp_character_appearance.py] and the properties
    of its pipeline: tokenise, normalise, count against a vocabulary,
    build the long-format table, keep the top-N characters by spread,
    order them by maximum, drop the absent values before plotting.

    Conventions of the embedding.
    - A Python [str] is a [string]; the character predicates and case
      mappings are those of Python on ASCII code points (a code point
      above 127 is treated as a caseless non-letter).  Outside ASCII
      Python's [lower], [capitalize] and [isalpha] do more (they can
      change the length of a word, and accept every Unicode letter); a
      statement whose truth depends on it is stated for ASCII words.
    - A [dict] or [Counter] that is only read through [.get] is a
      [gmap string nat].
    - The Frequency column of the data frame holds counts and missing
      values (pandas turns [None] into NaN): [option nat].
    - The libraries the script calls are modelled by what they are
      documented to do: [re.sub], [str.isalpha], [str.lower],
      [str.capitalize], [zip], [pandas.DataFrame], [groupby] (sorted group
      keys), [max]/[min] (missing values skipped), [nlargest]
      (keep='first', missing values ranked last), [isin], [sort_values]
      (missing values last), [set_index/loc/reset_index], [dropna].
      NLTK's tokenizer and the file system are parameters. *)

From Stdlib Require Import ZArith Lia Ascii String OrderedTypeEx.
From stdpp Require Import base list sorting strings gmap.

Local Open Scope string_scope.

(** ** Python string operations on ASCII *)

Module PyStr.

Definition is_upper (c : ascii) : bool :=
  let n := N_of_ascii c in ((65 <=? n) && (n <=? 90))%N.

Definition is_lower (c : ascii) : bool :=
  let n := N_of_ascii c in ((97 <=? n) && (n <=? 122))%N.

Definition isalpha_char (c : ascii) : bool := is_upper c || is_lower c.

Definition lower_char (c : ascii) : ascii :=
  if is_upper c then ascii_of_N (N_of_ascii c + 32) else c.

Definition upper_char (c : ascii) : ascii :=
  if is_lower c then ascii_of_N (N_of_ascii c - 32) else c.

Fixpoint all_alpha (s : string) : bool :=
  match s with
  | "" => true
  | String c rest => isalpha_char c && all_alpha rest
  end.

(** [str.isalpha()]: at least one character, and all of them letters. *)
Definition isalpha (s : string) : bool :=
  match s with
  | "" => false
  | String _ _ => all_alpha s
  end.

(** [str.lower()] *)
Fixpoint lower (s : string) : string :=
  match s with
  | "" => ""
  | String c rest => String (lower_char c) (lower rest)
  end.

(** [str.capitalize()]: first character upper-cased, the rest lower-cased. *)
Definition capitalize (s : string) : string :=
  match s with
  | "" => ""
  | String c rest => String (upper_char c) (lower rest)
  end.

End PyStr.

(** ** normalize_word *)

Definition apostrophe : ascii := "'"%char.
Definition newline : ascii := ascii_of_N 10.

(** [re.sub(r"'s$", '', word)].  The pattern is matched case-sensitively
    (no flag is given); [$] matches at the end of the string and just
    before a newline that ends the string.  The scan goes left to right
    and replaces the match by the empty string; after a match only [""]
    or the final newline is left, so there is at most one. *)
Fixpoint re_sub_possessive (word : string) : string :=
  match word with
  | "" => ""
  | String c rest =>
      if String.eqb word "'s" then ""
      else if String.eqb word (String apostrophe (String "s" (String newline ""))) then
             String newline ""
      else String c (re_sub_possessive rest)
  end.

Definition normalize_word (word : string) : string :=
  let word := re_sub_possessive word in
  PyStr.lower word.

(** ** The environment: NLTK's tokenizer and the file system *)

(** [open(file_path, 'r', encoding='utf-8').read()] either yields the text
    or raises; [e] is the text of the exception. *)
Inductive ReadResult :=
  | ReadOk (text : string)
  | ReadError (e : string).

(** ** Counting *)

(** [dict.get(key, default)] *)
Definition dict_get (d : gmap string nat) (key : string) (dflt : nat) : nat :=
  default dflt (d !! key).

(** [Counter(words)]: one increment per element, in order. *)
Definition Counter (words : list string) : gmap string nat :=
  foldl (λ c w, <[w := S (dict_get c w 0)]> c) ∅ words.

Section TextProcessor.
Variable word_tokenize : string -> list string.
Variable read_file : string -> ReadResult.

(** [[normalize_word(word) for word in words if word.isalpha()]] *)
Definition normalized_words (text : string) : list string :=
  let words := word_tokenize text in
  normalize_word <$> filter (λ word, PyStr.isalpha word = true) words.

Definition count_word_frequencies (text : string) (target_words : list string)
  : gmap string nat :=
  let word_counts := Counter (normalized_words text) in
  foldl (λ d word, <[word := dict_get word_counts word 0]> d) ∅ target_words.

(** The result is paired with the lines printed on standard output. *)
Definition process_novel (file_path : string) (target_words : list string)
  : gmap string nat * list string :=
  match read_file file_path with
  | ReadError e =>
      (∅, ["Error reading the file " +:+ file_path +:+ ": " +:+ e])
  | ReadOk text => (count_word_frequencies text target_words, [])
  end.
End TextProcessor.

(** The variant the refinement is stated against: the kept alphabetic
    tokens are only lower-cased, with no possessive stripping. *)
Section LowerOnlyVariant.
Variable word_tokenize : string -> list string.

Definition lowercased_words (text : string) : list string :=
  PyStr.lower <$> filter (λ word, PyStr.isalpha word = true) (word_tokenize text).

Definition count_word_frequencies_lower_only (text : string)
    (target_words : list string) : gmap string nat :=
  let word_counts := Counter (lowercased_words text) in
  foldl (λ d word, <[word := dict_get word_counts word 0]> d) ∅ target_words.
End LowerOnlyVariant.

(** ** The frequency table *)

Record FrequencyRecord := mkRecord {
  Novel : string;
  Character : string;
  Frequency : option nat
}.

#[global] Instance FrequencyRecord_eq_dec : EqDecision FrequencyRecord.
Proof. solve_decision. Defined.

(** [pd.DataFrame(data)] of a list of dicts: an empty list gives a frame
    without columns, on which selecting a column raises [KeyError]. *)
Inductive DataFrame :=
  | NoColumns
  | Frame (rows : list FrequencyRecord).

Definition pd_DataFrame (data : list FrequencyRecord) : DataFrame :=
  match data with
  | [] => NoColumns
  | _ :: _ => Frame data
  end.

Definition records (df : DataFrame) : list FrequencyRecord :=
  match df with
  | NoColumns => []
  | Frame rows => rows
  end.

Inductive Exn := KeyError (key : string).

Inductive PyResult (A : Type) :=
  | Returns (a : A)
  | Raises (e : Exn).
Arguments Returns {A} a.
Arguments Raises {A} e.

Definition bind {A B} (r : PyResult A) (k : A -> PyResult B) : PyResult B :=
  match r with
  | Returns a => k a
  | Raises e => Raises e
  end.

Section TableBuilder.
Variable word_tokenize : string -> list string.
Variable read_file : string -> ReadResult.

(** The body of the inner loop, for one novel. *)
Definition novel_rows (title : string) (frequencies : gmap string nat)
    (target_words : list string) : list FrequencyRecord :=
  (λ character,
     let freq := dict_get frequencies character 0 in
     let freq := if (0 <? freq)%nat then Some freq else None in
     {| Novel := title;
        Character := PyStr.capitalize character;
        Frequency := freq |}) <$> target_words.

(** The outer loop, threading the accumulated [data] and the output. *)
Fixpoint prepare_loop (novels : list (string * string))
    (target_words : list string)
    (data : list FrequencyRecord) (out : list string)
  : list FrequencyRecord * list string :=
  match novels with
  | [] => (data, out)
  | (path, title) :: rest =>
      let '(frequencies, printed) :=
        process_novel word_tokenize read_file path target_words in
      prepare_loop rest target_words
        (data ++ novel_rows title frequencies target_words) (out ++ printed)
  end.

Definition prepare_plot_data (novel_paths novel_titles target_words : list string)
  : DataFrame * list string :=
  let '(data, out) :=
    prepare_loop (zip novel_paths novel_titles) target_words [] [] in
  (pd_DataFrame data, out).
End TableBuilder.

(** ** The pandas operations the selector and the orderer use *)

(** A numeric Series indexed by character name; [None] is NaN. *)
Abbreviation Series := (list (string * option Z)).

(** Group keys of [groupby('Character')]: the distinct names, sorted
    (the default [sort=True]) in code-point order. *)
Fixpoint insert_key (k : string) (ks : list string) : list string :=
  match ks with
  | [] => [k]
  | k' :: ks' =>
      match String.compare k k' with
      | Lt => k :: ks
      | Eq => ks
      | Gt => k' :: insert_key k ks'
      end
  end.

Definition group_keys (rows : list FrequencyRecord) : list string :=
  foldr insert_key [] (Character <$> rows).

Definition group_rows (k : string) (rows : list FrequencyRecord)
  : list FrequencyRecord :=
  filter (λ r, Character r = k) rows.

Definition group_values (k : string) (rows : list FrequencyRecord)
  : list (option nat) :=
  Frequency <$> group_rows k rows.

(** [x.max()] and [x.min()] skip missing values and are NaN when there is
    no value left. *)
Definition skipna (f : nat -> nat -> nat) (a b : option nat) : option nat :=
  match a, b with
  | Some x, Some y => Some (f x y)
  | Some x, None => Some x
  | None, _ => b
  end.

Definition series_max (x : list (option nat)) : option nat :=
  foldr (skipna Nat.max) None x.

Definition series_min (x : list (option nat)) : option nat :=
  foldr (skipna Nat.min) None x.

(** [x.max() - x.min()]; NaN - NaN is NaN. *)
Definition spread (x : list (option nat)) : option Z :=
  match series_max x, series_min x with
  | Some hi, Some lo => Some (Z.of_nat hi - Z.of_nat lo)%Z
  | _, _ => None
  end.

Definition present (s : Series) : list (string * Z) :=
  omap (λ e, match e.2 with Some v => Some (e.1, v) | None => None end) s.

Definition missing (s : Series) : Series :=
  filter (λ e, e.2 = None) s.

(** Stable insertion in descending order: the new entry, which comes
    earlier in the series than those of [l], goes before its equals. *)
Fixpoint insert_desc (x : string * Z) (l : list (string * Z))
  : list (string * Z) :=
  match l with
  | [] => [x]
  | y :: l' =>
      if (x.2 <? y.2)%Z then y :: insert_desc x l' else x :: l
  end.

Definition stable_sort_desc (l : list (string * Z)) : list (string * Z) :=
  foldr insert_desc [] l.

(** [sort_values(ascending=False)]: the values in descending order, the
    missing ones last (na_position='last') in their original order.
    Entries with equal values are kept in series order here; the default
    sort kind does not promise it, and no statement about the orderer
    below depends on the order among equal values. *)
Definition sort_values_desc (s : Series) : Series :=
  (((λ e, (e.1, Some e.2)) <$> stable_sort_desc (present s)) ++ missing s)%list.

(** [nlargest(n)] with keep='first': the first [n] entries by descending
    value, the first occurrence preferred among equal values.  Entries with
    a missing value come after all others and fill the result up to [n]
    (pandas 1.3 and later: the ranked values are concatenated with the
    index of the missing ones before the cut at [n]).  The series is
    numeric, as [agg] yields it for a frame that has rows; a series has
    no dtype here, so the [TypeError] of [nlargest] on the empty
    object-dtype series that [agg] returns for an empty frame cut from a
    table without any present value is not modelled. *)
Definition nlargest (n : Z) (s : Series) : Series :=
  if (n <=? 0)%Z then [] else take (Z.to_nat n) (sort_values_desc s).

(** ** Selector *)

Definition change_in_frequency (rows : list FrequencyRecord) : Series :=
  (λ k, (k, spread (group_values k rows))) <$> group_keys rows.

Definition calculate_change_in_frequency (df : DataFrame) : PyResult Series :=
  match df with
  | NoColumns => Raises (KeyError "Character")
  | Frame rows => Returns (change_in_frequency rows)
  end.

(** [max_min_diff.nlargest(top_n).index.tolist()] *)
Definition top_characters (rows : list FrequencyRecord) (top_n : Z) : list string :=
  (nlargest top_n (change_in_frequency rows)).*1.

Definition filter_top_characters (df : DataFrame) (top_n : Z) : PyResult DataFrame :=
  bind (calculate_change_in_frequency df) (λ max_min_diff,
    let top_characters := (nlargest top_n max_min_diff).*1 in
    Returns (Frame (filter (λ r, Character r ∈ top_characters) (records df)))).

(** ** Orderer *)

Definition max_appearance (rows : list FrequencyRecord) : Series :=
  (λ k, (k, Z.of_nat <$> series_max (group_values k rows))) <$> group_keys rows.

Definition sorted_characters (rows : list FrequencyRecord) : list string :=
  (sort_values_desc (max_appearance rows)).*1.

(** [set_index('Character').loc[sorted_characters].reset_index()]: for
    each label in turn, all the rows that carry it, in row order. *)
Definition order_characters_by_max_appearance (filtered_df : DataFrame)
  : PyResult DataFrame :=
  match filtered_df with
  | NoColumns => Raises (KeyError "Character")
  | Frame rows =>
      Returns (Frame (sorted_characters rows ≫= λ c, group_rows c rows))
  end.

(** ** Renderer: the rows that reach the plot *)

(** [df.dropna(subset=['Frequency'])] *)
Definition dropna (rows : list FrequencyRecord) : list FrequencyRecord :=
  filter (λ r, is_Some (Frequency r)) rows.

(** The points handed to [sns.lineplot]. *)
Definition plot_character_frequencies (df : DataFrame)
  : PyResult (list FrequencyRecord) :=
  match df with
  | NoColumns => Raises (KeyError "Frequency")
  | Frame rows => Returns (dropna rows)
  end.

(** ** The script, from the loaded vocabulary on *)

Definition run (word_tokenize : string -> list string)
    (read_file : string -> ReadResult)
    (novel_paths novel_titles target_words : list string) (top_n : Z)
  : PyResult (list FrequencyRecord) * list string :=
  let '(plot_df, out) :=
    prepare_plot_data word_tokenize read_file novel_paths novel_titles target_words in
  (bind (filter_top_characters plot_df top_n) (λ filtered_df,
     bind (order_characters_by_max_appearance filtered_df) (λ ordered_df,
       plot_character_frequencies ordered_df)),
   out).

(** ** Vocabulary of the statements *)

(** Number of elements of [ws] equal to [w]. *)
Definition occurrences (w : string) (ws : list string) : nat :=
  length (filter (λ x, x = w) ws).

Section Entries.
Variable word_tokenize : string -> list string.
Variable read_file : string -> ReadResult.

(** The count [prepare_plot_data] looks up for a word in a novel. *)
Definition looked_up_count (target_words : list string) (path word : string) : nat :=
  dict_get (process_novel word_tokenize read_file path target_words).1 word 0.

(** The record of one (novel, vocabulary word) pair. *)
Definition entry (target_words : list string) (path title word : string)
  : FrequencyRecord :=
  let freq := looked_up_count target_words path word in
  {| Novel := title;
     Character := PyStr.capitalize word;
     Frequency := if (0 <? freq)%nat then Some freq else None |}.

(** The records and the output of one novel. *)
Definition novel_block (target_words : list string) (novel : string * string)
  : list FrequencyRecord :=
  entry target_words novel.1 novel.2 <$> target_words.

Definition novel_output (target_words : list string) (novel : string * string)
  : list string :=
  (process_novel word_tokenize read_file novel.1 target_words).2.
End Entries.

(** Code-point order on names, the order of the group keys. *)
Definition str_lt (a b : string) : Prop := String.compare a b = Lt.

(** The spread and the maximum of a character in a table. *)
Definition spread_of (rows : list FrequencyRecord) (c : string) : option Z :=
  spread (group_values c rows).

Definition max_of (rows : list FrequencyRecord) (c : string) : option nat :=
  series_max (group_values c rows).

(** Ranking of series entries: the larger value first, a missing value
    after every value, and the smaller name first among equals. *)
Definition outranks (x y : string * option Z) : Prop :=
  match x.2, y.2 with
  | Some a, Some b => (b < a)%Z \/ (a = b /\ str_lt x.1 y.1)
  | Some _, None => True
  | None, Some _ => False
  | None, None => str_lt x.1 y.1
  end.

(** Non-increasing maxima, a character without any value after the others. *)
Definition not_below (a b : option nat) : Prop :=
  match a, b with
  | Some x, Some y => y <= x
  | Some _, None => True
  | None, Some _ => False
  | None, None => True
  end.

(** Strictly decreasing maxima. *)
Definition strictly_above (a b : option nat) : Prop :=
  match a, b with
  | Some x, Some y => y < x
  | _, _ => False
  end.

(** The same ranking on entries that have a value, and the order of the
    index of a series built by [groupby]. *)
Definition before (x y : string * Z) : Prop :=
  (y.2 < x.2)%Z \/ (x.2 = y.2 /\ str_lt x.1 y.1).

Definition by_key {V : Type} (x y : string * V) : Prop := str_lt x.1 y.1.

(** ** A small tokenizer to run the pipeline on examples

    Whitespace separates tokens, a punctuation mark is a token of its own,
    and an apostrophe starts a new token that takes the letters after it
    (the clitic ['s] of the Treebank conventions).  It stands for NLTK's
    [word_tokenize] on plain prose only; the theorems below hold for any
    tokenizer. *)

Definition is_space (c : ascii) : bool :=
  let n := N_of_ascii c in ((n =? 32) || ((9 <=? n) && (n <=? 13)))%N.

Definition is_digit (c : ascii) : bool :=
  let n := N_of_ascii c in ((48 <=? n) && (n <=? 57))%N.

Definition flush (cur : string) : list string :=
  match cur with
  | "" => []
  | String _ _ => [cur]
  end.

Fixpoint split_tokens (cur : string) (s : string) : list string :=
  match s with
  | "" => flush cur
  | String c rest =>
      if is_space c then (flush cur ++ split_tokens "" rest)%list
      else if PyStr.isalpha_char c || is_digit c then
             split_tokens (cur +:+ String c "") rest
      else if Ascii.eqb c apostrophe then
             (flush cur ++ split_tokens (String c "") rest)%list
      else (flush cur ++ String c "" :: split_tokens "" rest)%list
  end.

Definition prose_tokenize (text : string) : list string := split_tokens "" text.

(** A file system with two novels and one unreadable path. *)
Definition two_novels (path : string) : ReadResult :=
  if String.eqb path "novel1.txt" then ReadOk "Harry ran. Harry's wand glowed."
  else if String.eqb path "novel2.txt" then ReadOk "Ron and Harry talked."
  else ReadError "[Errno 2] No such file or directory".

(** ** Vocabulary loader *)

(** [str.isspace()] on one character, for code points below 256. *)
Definition isspace_char (c : ascii) : bool :=
  let n := N_of_ascii c in
  (((9 <=? n) && (n <=? 13)) || ((28 <=? n) && (n <=? 32))
   || (n =? 133) || (n =? 160))%N.

Fixpoint lstrip (s : string) : string :=
  match s with
  | "" => ""
  | String c rest => if isspace_char c then lstrip rest else s
  end.

Fixpoint rstrip (s : string) : string :=
  match s with
  | "" => ""
  | String c rest =>
      match rstrip rest with
      | "" => if isspace_char c then "" else String c ""
      | String _ _ as rest' => String c rest'
      end
  end.

(** [str.strip()]: leading and trailing whitespace removed. *)
Definition strip (s : string) : string := rstrip (lstrip s).

(** Iterating over a text file: the lines, each with its final newline,
    and a last line without one if the text does not end in a newline. *)
Fixpoint lines_from (cur : string) (text : string) : list string :=
  match text with
  | "" => match cur with "" => [] | String _ _ => [cur] end
  | String c rest =>
      if Ascii.eqb c newline then (cur +:+ String c "") :: lines_from "" rest
      else lines_from (cur +:+ String c "") rest
  end.

Definition file_lines (text : string) : list string := lines_from "" text.

(** The vocabulary, or the exception that [open] or the read raised:
    [load_target_words] has no handler, the exception propagates. *)
Inductive LoadResult :=
  | Loaded (words : list string)
  | LoadRaises (e : string).

(** [[line.strip().lower() for line in f if line.strip()]] *)
Definition load_target_words (read_file : string -> ReadResult)
    (file_path : string) : LoadResult :=
  match read_file file_path with
  | ReadError e => LoadRaises e
  | ReadOk text =>
      Loaded ((λ line, PyStr.lower (strip line)) <$>
                filter (λ line, strip line <> "") (file_lines text))
  end.

(** ** ASCII words *)

Definition is_ascii_char (c : ascii) : bool := (N_of_ascii c <? 128)%N.

(** An ASCII character other than a lower-case letter: an upper-case
    letter, a digit, a space, a hyphen, an apostrophe, ... *)
Definition outside_a_z (c : ascii) : bool :=
  is_ascii_char c && negb (PyStr.is_lower c).

Fixpoint all_chars (p : ascii -> bool) (s : string) : bool :=
  match s with
  | "" => true
  | String c rest => p c && all_chars p rest
  end.

Fixpoint some_char (p : ascii -> bool) (s : string) : bool :=
  match s with
  | "" => false
  | String c rest => p c || some_char p rest
  end.

(** [str.isascii()] *)
Definition isascii (s : string) : bool := all_chars is_ascii_char s.

(** ** Legend order of the plot *)

(** [Series.unique()]: the distinct values in order of first appearance. *)
Fixpoint unique (l : list string) : list string :=
  match l with
  | [] => []
  | x :: l' => x :: filter (λ y, y <> x) (unique l')
  end.

(** [hue_order=df_clean['Character'].unique()] *)
Definition hue_order (df_clean : list FrequencyRecord) : list string :=
  unique (Character <$> df_clean).

(** ** The script's constants and its main block *)

Definition novel_paths : list string :=
  [ "J. K. Rowling - Harry Potter 1 - Sorcerer's Stone.txt";
    "J. K. Rowling - Harry Potter 2 - The Chamber Of Secrets.txt";
    "J. K. Rowling - Harry Potter 3 - Prisoner of Azkaban.txt";
    "J. K. Rowling - Harry Potter 4 - The Goblet of Fire.txt" ].

Definition novel_titles : list string :=
  [ "Sorcerer's Stone"; "Chamber of Secrets";
    "Prisoner of Azkaban"; "Goblet of Fire" ].

Definition characters_file_path : string := "characters".

(** What the main block does: the vocabulary cannot be loaded and the
    exception ends the program, or the pipeline runs with [top_n=10]. *)
Inductive MainResult :=
  | VocabularyRaises (e : string)
  | Ran (result : PyResult (list FrequencyRecord)) (out : list string).

Definition main (word_tokenize : string -> list string)
    (read_file : string -> ReadResult) : MainResult :=
  match load_target_words read_file characters_file_path with
  | LoadRaises e => VocabularyRaises e
  | Loaded target_words =>
      let '(result, out) :=
        run word_tokenize read_file novel_paths novel_titles target_words 10 in
      Ran result out
  end.

(** A characters file with a blank line, surrounding blanks and capitals. *)
Definition sample_files (path : string) : ReadResult :=
  if String.eqb path "characters" then
    ReadOk ("  Harry " +:+ String newline "" +:+ String newline "" +:+
            "RON" +:+ String newline "" +:+ "mad-eye")
  else two_novels path.

(** * Properties *)

(** ** Normalisation *)

Lemma marker_not_short (r : string) (m : ascii) :
  r +:+ String apostrophe (String m "") <> "s" /\
  r +:+ String apostrophe (String m "") <> String "s" (String newline "").
Proof.
  destruct r as [|a [|b [|c r]]]; simpl; split; intros H; inversion H.
Qed.

Lemma re_sub_cons (c : ascii) (rest : string) :
  re_sub_possessive (String c rest) =
  if String.eqb (String c rest) "'s" then ""
  else if String.eqb (String c rest)
            (String apostrophe (String "s" (String newline "")))
       then String newline ""
       else String c (re_sub_possessive rest).
Proof. reflexivity. Qed.

(** A trailing lower-case marker is removed, whatever precedes it. *)
Lemma re_sub_trailing_marker (w : string) : re_sub_possessive (w +:+ "'s") = w.
Proof.
  induction w as [|c w IH]; [reflexivity|].
  change (String c w +:+ "'s") with (String c (w +:+ "'s")).
  rewrite re_sub_cons.
  destruct (String.eqb_spec (String c (w +:+ "'s")) "'s") as [E|_].
  { inversion E as [[Hc Hw]]. now destruct (marker_not_short w "s"). }
  destruct (String.eqb_spec (String c (w +:+ "'s"))
              (String apostrophe (String "s" (String newline "")))) as [E|_].
  { inversion E as [[Hc Hw]]. now destruct (marker_not_short w "s"). }
  now rewrite IH.
Qed.

(** An upper-case marker is left in place. *)
Lemma re_sub_upper_marker (w : string) :
  re_sub_possessive (w +:+ "'S") = w +:+ "'S".
Proof.
  induction w as [|c w IH]; [reflexivity|].
  change (String c w +:+ "'S") with (String c (w +:+ "'S")).
  rewrite re_sub_cons.
  destruct (String.eqb_spec (String c (w +:+ "'S")) "'s") as [E|_].
  { inversion E as [[Hc Hw]]. now destruct (marker_not_short w "S"). }
  destruct (String.eqb_spec (String c (w +:+ "'S"))
              (String apostrophe (String "s" (String newline "")))) as [E|_].
  { inversion E as [[Hc Hw]]. now destruct (marker_not_short w "S"). }
  now rewrite IH.
Qed.

(** A string of letters holds no marker. *)
Lemma re_sub_all_alpha (w : string) :
  PyStr.all_alpha w = true -> re_sub_possessive w = w.
Proof.
  induction w as [|c w IH]; [reflexivity|].
  rewrite re_sub_cons. cbn [PyStr.all_alpha]. intros [Hc Hw]%andb_true_iff.
  destruct (String.eqb_spec (String c w) "'s") as [E|_].
  { inversion E; subst. discriminate Hc. }
  destruct (String.eqb_spec (String c w)
              (String apostrophe (String "s" (String newline "")))) as [E|_].
  { inversion E; subst. discriminate Hc. }
  now rewrite IH.
Qed.

Lemma normalize_alpha_token (w : string) :
  PyStr.isalpha w = true -> normalize_word w = PyStr.lower w.
Proof.
  intros H. unfold normalize_word. rewrite re_sub_all_alpha; [reflexivity|].
  destruct w; [discriminate H | exact H].
Qed.

(** C2, as stated, fails: the pattern has no ignore-case flag, so a word
    ending in ['S] keeps its marker and is not normalised like the same
    word ending in ['s]. *)
Lemma normalize_word_upper_marker_kept :
  normalize_word "Harry'S" = "harry's" /\
  normalize_word "Harry'S" <> normalize_word "Harry's".
Proof. split; [reflexivity | discriminate]. Qed.

(** C2, amended: [normalize_word] removes one trailing ['s] with a
    lower-case s and lower-cases the remainder, so that Harry's, harry,
    Harry and HARRY all give harry; a trailing ['S] is not removed: the
    substitution leaves the word as it is and the whole word, marker
    included, is lower-cased, so that Harry'S gives harry's. *)
Theorem normalize_word_strips_lowercase_marker :
  (forall w, normalize_word (w +:+ "'s") = PyStr.lower w) /\
  (forall w, re_sub_possessive (w +:+ "'S") = w +:+ "'S" /\
             normalize_word (w +:+ "'S") = PyStr.lower (w +:+ "'S")) /\
  normalize_word "Harry's" = "harry" /\
  normalize_word "harry" = "harry" /\
  normalize_word "Harry" = "harry" /\
  normalize_word "HARRY" = "harry" /\
  normalize_word "Harry'S" = "harry's".
Proof.
  split; [|split]; [| |repeat split; reflexivity].
  - intros w. unfold normalize_word. now rewrite re_sub_trailing_marker.
  - intros w. unfold normalize_word.
    now rewrite re_sub_upper_marker.
Qed.

(** A word without a trailing marker is only lower-cased. *)
Lemma normalize_word_no_marker (w : string) :
  (forall u, w <> u +:+ "'s") ->
  (forall u, w <> u +:+ String apostrophe (String "s" (String newline ""))) ->
  normalize_word w = PyStr.lower w.
Proof.
  intros H1 H2. unfold normalize_word. f_equal.
  induction w as [|c w IH]; [reflexivity|]. rewrite re_sub_cons.
  destruct (String.eqb_spec (String c w) "'s") as [E|_].
  { now destruct (H1 ""). }
  destruct (String.eqb_spec (String c w)
              (String apostrophe (String "s" (String newline "")))) as [E|_].
  { now destruct (H2 ""). }
  rewrite IH; [reflexivity| |].
  - intros u ->. now apply (H1 (String c u)).
  - intros u ->. now apply (H2 (String c u)).
Qed.

(** C10: every token kept by the alphabetic filter is left unchanged by
    the possessive stripping, so [count_word_frequencies] agrees with the
    variant that only lower-cases the kept tokens, for every tokenizer,
    text and vocabulary. *)
Theorem count_word_frequencies_lower_only_equiv
    (word_tokenize : string -> list string) (text : string)
    (target_words : list string) :
  Forall (λ word, re_sub_possessive word = word)
    (filter (λ word, PyStr.isalpha word = true) (word_tokenize text)) /\
  count_word_frequencies word_tokenize text target_words =
  count_word_frequencies_lower_only word_tokenize text target_words.
Proof.
  split.
  { apply Forall_forall. intros w [Hw _]%list_elem_of_filter.
    apply re_sub_all_alpha. destruct w; [discriminate Hw | exact Hw]. }
  unfold count_word_frequencies, count_word_frequencies_lower_only.
  replace (normalized_words word_tokenize text)
    with (lowercased_words word_tokenize text); [reflexivity|].
  unfold normalized_words, lowercased_words. symmetry.
  apply list_fmap_ext. intros i w Hw.
  apply list_elem_of_lookup_2, list_elem_of_filter in Hw as [Hw _].
  now apply normalize_alpha_token.
Qed.

(** ** Counting *)

Lemma dict_get_insert (d : gmap string nat) (k w : string) (v : nat) :
  dict_get (<[k := v]> d) w 0 = if decide (k = w) then v else dict_get d w 0.
Proof.
  unfold dict_get. rewrite lookup_insert. now destruct (decide (k = w)).
Qed.

Lemma occurrences_cons (w x : string) (ws : list string) :
  occurrences w (x :: ws) =
  if decide (x = w) then S (occurrences w ws) else occurrences w ws.
Proof.
  unfold occurrences. rewrite filter_cons. now destruct (decide (x = w)).
Qed.

Lemma Counter_from (ws : list string) (c : gmap string nat) (w : string) :
  dict_get (foldl (λ c w, <[w := S (dict_get c w 0)]> c) c ws) w 0 =
  dict_get c w 0 + occurrences w ws.
Proof.
  revert c. induction ws as [|x ws IH]; intros c; simpl.
  - unfold occurrences. simpl. lia.
  - rewrite IH, dict_get_insert, occurrences_cons.
    destruct (decide (x = w)); subst; lia.
Qed.

(** A [Counter] maps each word to its number of occurrences. *)
Lemma Counter_get (ws : list string) (w : string) :
  dict_get (Counter ws) w 0 = occurrences w ws.
Proof. unfold Counter. now rewrite Counter_from. Qed.

Lemma filtered_counts_from (wc : gmap string nat) (ws : list string)
    (d : gmap string nat) (w : string) :
  foldl (λ d word, <[word := dict_get wc word 0]> d) d ws !! w =
  if decide (w ∈ ws) then Some (dict_get wc w 0) else d !! w.
Proof.
  revert d. induction ws as [|x ws IH]; intros d; cbn [foldl].
  - destruct (decide (w ∈ [])) as [H|_]; [now apply elem_of_nil in H | reflexivity].
  - rewrite IH. destruct (decide (w ∈ ws)) as [Hin|Hin].
    + rewrite decide_True by (now right). reflexivity.
    + rewrite lookup_insert. destruct (decide (x = w)) as [->|Hne].
      * rewrite decide_True by left. reflexivity.
      * rewrite decide_False; [reflexivity|].
        intros [->|?]%elem_of_cons; congruence.
Qed.

Section CountingFacts.
Variable word_tokenize : string -> list string.
Variable read_file : string -> ReadResult.

(** The count of a vocabulary word is its number of occurrences among
    the normalised alphabetic tokens. *)
Lemma count_word_frequencies_get (text : string) (target_words : list string)
    (w : string) :
  w ∈ target_words ->
  dict_get (count_word_frequencies word_tokenize text target_words) w 0 =
  occurrences w (normalized_words word_tokenize text).
Proof.
  intros Hw. unfold count_word_frequencies. cbv zeta. unfold dict_get at 1.
  rewrite filtered_counts_from. rewrite decide_True by exact Hw.
  apply Counter_get.
Qed.

Lemma looked_up_count_read (target_words : list string) (path w text : string) :
  read_file path = ReadOk text -> w ∈ target_words ->
  looked_up_count word_tokenize read_file target_words path w =
  occurrences w (normalized_words word_tokenize text).
Proof.
  intros Hr Hw. unfold looked_up_count, process_novel. rewrite Hr. simpl.
  now apply count_word_frequencies_get.
Qed.

Lemma looked_up_count_failed (target_words : list string) (path w e : string) :
  read_file path = ReadError e ->
  looked_up_count word_tokenize read_file target_words path w = 0.
Proof.
  intros Hr. unfold looked_up_count, process_novel. now rewrite Hr.
Qed.

(** ** The table builder *)

Lemma novel_rows_block (target_words : list string) (path title : string) :
  novel_rows title (process_novel word_tokenize read_file path target_words).1
    target_words =
  novel_block word_tokenize read_file target_words (path, title).
Proof. reflexivity. Qed.

Lemma prepare_loop_spec (novels : list (string * string))
    (target_words : list string) (data : list FrequencyRecord)
    (out : list string) :
  prepare_loop word_tokenize read_file novels target_words data out =
  ((data ++ (novels ≫= novel_block word_tokenize read_file target_words))%list,
   (out ++ (novels ≫= novel_output word_tokenize read_file target_words))%list).
Proof.
  revert data out. induction novels as [|[path title] rest IH]; intros data out.
  - simpl. now rewrite !app_nil_r.
  - cbn [prepare_loop].
    destruct (process_novel word_tokenize read_file path target_words)
      as [frequencies printed] eqn:E.
    rewrite IH. cbn [mbind list_bind]. rewrite <- !app_assoc.
    unfold novel_output at 2. cbn [fst snd]. rewrite E. cbn [fst snd].
    rewrite <- novel_rows_block, E. reflexivity.
Qed.

Lemma prepare_plot_data_records (novel_paths novel_titles target_words : list string) :
  records (prepare_plot_data word_tokenize read_file
             novel_paths novel_titles target_words).1 =
  zip novel_paths novel_titles ≫= novel_block word_tokenize read_file target_words.
Proof.
  unfold prepare_plot_data. rewrite prepare_loop_spec. cbn [fst app].
  now destruct (_ ≫= _).
Qed.

Lemma prepare_plot_data_output (novel_paths novel_titles target_words : list string) :
  (prepare_plot_data word_tokenize read_file
     novel_paths novel_titles target_words).2 =
  zip novel_paths novel_titles ≫= novel_output word_tokenize read_file target_words.
Proof.
  unfold prepare_plot_data. now rewrite prepare_loop_spec.
Qed.
End CountingFacts.

(** ** Blocks of equal length in a flattened list *)

Section Blocks.
Context {A B : Type} (g : A -> list B) (n : nat).
Hypothesis g_length : forall a, length (g a) = n.

Lemma bind_blocks_length (l : list A) : length (l ≫= g) = length l * n.
Proof.
  induction l as [|a l IH]; [reflexivity|].
  cbn [mbind list_bind]. rewrite length_app, g_length.
  change (list_bind _ _ g l) with (l ≫= g). rewrite IH. simpl. lia.
Qed.

Lemma bind_blocks_drop (l : list A) (i : nat) (x : A) :
  l !! i = Some x -> take n (drop (i * n) (l ≫= g)) = g x.
Proof.
  revert i. induction l as [|a l IH]; intros i Hi; [discriminate|].
  cbn [mbind list_bind]. change (list_bind _ _ g l) with (l ≫= g).
  destruct i as [|i].
  - injection Hi as ->. simpl. now apply take_app_length'.
  - replace (S i * n) with (n + i * n) by lia.
    rewrite drop_app_add' by now rewrite g_length.
    now apply IH.
Qed.

Lemma bind_blocks_lookup (l : list A) (i j : nat) (x : A) :
  l !! i = Some x -> j < n -> (l ≫= g) !! (i * n + j) = g x !! j.
Proof.
  intros Hi Hj. rewrite <- (bind_blocks_drop l i x Hi).
  rewrite lookup_take_lt by exact Hj. now rewrite lookup_drop.
Qed.

(** Every element of the flattened list sits in the block of some index. *)
Lemma bind_blocks_elem (l : list A) (y : B) :
  y ∈ l ≫= g -> exists i x j, l !! i = Some x /\ g x !! j = Some y /\
                             (l ≫= g) !! (i * n + j) = Some y.
Proof.
  intros (x & Hy & Hx)%list_elem_of_bind.
  apply list_elem_of_lookup in Hx as [i Hi].
  apply list_elem_of_lookup in Hy as [j Hj].
  exists i, x, j. repeat split; try assumption.
  rewrite (bind_blocks_lookup l i j x Hi); [exact Hj|].
  rewrite <- (g_length x). now apply lookup_lt_Some in Hj.
Qed.
End Blocks.

(** ** Rows only flow forward: selection, ordering and cleaning add none *)

Lemma filter_top_characters_rows (df df' : DataFrame) (top_n : Z) (r : FrequencyRecord) :
  filter_top_characters df top_n = Returns df' ->
  r ∈ records df' -> r ∈ records df.
Proof.
  destruct df as [|rows]; [discriminate|].
  cbn. intros [= <-] Hr. cbn in Hr.
  now apply list_elem_of_filter in Hr as [_ Hr].
Qed.

Lemma order_characters_rows (df df' : DataFrame) (r : FrequencyRecord) :
  order_characters_by_max_appearance df = Returns df' ->
  r ∈ records df' -> r ∈ records df.
Proof.
  destruct df as [|rows]; [discriminate|].
  cbn. intros [= <-] Hr. cbn in Hr.
  apply list_elem_of_bind in Hr as (c & Hr & _).
  now apply list_elem_of_filter in Hr as [_ Hr].
Qed.

Lemma plot_points_rows (df : DataFrame) (points : list FrequencyRecord)
    (r : FrequencyRecord) :
  plot_character_frequencies df = Returns points ->
  r ∈ points -> r ∈ records df /\ is_Some (Frequency r).
Proof.
  destruct df as [|rows]; [discriminate|].
  cbn. intros [= <-] Hr.
  apply list_elem_of_filter in Hr as [Hs Hr]. now split.
Qed.

Section TableFacts.
Variable word_tokenize : string -> list string.
Variable read_file : string -> ReadResult.

Local Abbreviation table paths titles words :=
  (records (prepare_plot_data word_tokenize read_file paths titles words).1).

Lemma novel_block_length (target_words : list string) (novel : string * string) :
  length (novel_block word_tokenize read_file target_words novel) =
  length target_words.
Proof. unfold novel_block. apply length_fmap. Qed.

Lemma table_lookup (novel_paths novel_titles target_words : list string)
    (i j : nat) (path title word : string) :
  novel_paths !! i = Some path -> novel_titles !! i = Some title ->
  target_words !! j = Some word ->
  table novel_paths novel_titles target_words !! (i * length target_words + j) =
  Some (entry word_tokenize read_file target_words path title word).
Proof.
  intros Hp Ht Hw. rewrite prepare_plot_data_records.
  rewrite (bind_blocks_lookup _ (length target_words)
             (novel_block_length target_words) _ i j (path, title)).
  - unfold novel_block. now rewrite list_lookup_fmap, Hw.
  - apply lookup_zip_with_Some. now exists path, title.
  - now apply lookup_lt_Some in Hw.
Qed.

(** Every record of the table is the entry of some (novel, word) pair. *)
Lemma table_elem (novel_paths novel_titles target_words : list string)
    (r : FrequencyRecord) :
  r ∈ table novel_paths novel_titles target_words ->
  exists i j path title word,
    novel_paths !! i = Some path /\ novel_titles !! i = Some title /\
    target_words !! j = Some word /\
    r = entry word_tokenize read_file target_words path title word.
Proof.
  rewrite prepare_plot_data_records.
  intros (i & [path title] & j & Hi & Hj & _)%(bind_blocks_elem _ (length target_words)
    (novel_block_length target_words)).
  apply lookup_zip_with_Some in Hi as (p & t & [= <- <-] & Hp & Ht).
  unfold novel_block in Hj. rewrite list_lookup_fmap in Hj.
  destruct (target_words !! j) as [word|] eqn:Hw; [|discriminate].
  injection Hj as <-. now exists i, j, path, title, word.
Qed.

Lemma run_points (novel_paths novel_titles target_words : list string)
    (top_n : Z) (points : list FrequencyRecord) (r : FrequencyRecord) :
  (run word_tokenize read_file novel_paths novel_titles target_words top_n).1 =
    Returns points ->
  r ∈ points ->
  r ∈ table novel_paths novel_titles target_words /\ is_Some (Frequency r).
Proof.
  unfold run.
  destruct (prepare_plot_data _ _ _ _ _) as [plot_df out]. cbn [fst].
  destruct (filter_top_characters plot_df top_n) as [filtered|] eqn:Hf;
    [|discriminate].
  cbn [bind].
  destruct (order_characters_by_max_appearance filtered) as [ordered|] eqn:Ho;
    [|discriminate].
  cbn [bind]. intros Hp Hr.
  destruct (plot_points_rows _ _ _ Hp Hr) as [Hin Hs]. split; [|exact Hs].
  eapply filter_top_characters_rows; [exact Hf|].
  eapply order_characters_rows; [exact Ho | exact Hin].
Qed.
End TableFacts.

(** ** The table: shape, zero handling, unreadable novels *)

Section TableTheorems.
Variable word_tokenize : string -> list string.
Variable read_file : string -> ReadResult.

Local Abbreviation table paths titles words :=
  (records (prepare_plot_data word_tokenize read_file paths titles words).1).
Local Abbreviation entry_of words path title word :=
  (entry word_tokenize read_file words path title word).

(** C6: for lists of paths and titles of equal length, the table has
    |novels| * |vocabulary| records, the record of novel [i] and word [j]
    sitting at position [i * |vocabulary| + j] with that novel's title and
    that word's capitalised name: novels outer, vocabulary inner. *)
Theorem prepare_plot_data_one_record_per_pair
    (novel_paths novel_titles target_words : list string) :
  length novel_paths = length novel_titles ->
  length (table novel_paths novel_titles target_words) =
    length novel_paths * length target_words /\
  (forall i j path title word,
      novel_paths !! i = Some path -> novel_titles !! i = Some title ->
      target_words !! j = Some word ->
      exists freq,
        table novel_paths novel_titles target_words
          !! (i * length target_words + j) =
        Some {| Novel := title;
                Character := PyStr.capitalize word;
                Frequency := freq |}).
Proof.
  intros Hlen. split.
  - rewrite prepare_plot_data_records.
    rewrite (bind_blocks_length _ (length target_words)
               (novel_block_length word_tokenize read_file target_words)).
    rewrite length_zip_with. rewrite <- Hlen. f_equal. lia.
  - intros i j path title word Hp Ht Hw. eexists.
    rewrite (table_lookup _ _ _ _ _ i j path title word Hp Ht Hw).
    reflexivity.
Qed.

(** C4: the record of a readable novel and a vocabulary word carries the
    number [k] of occurrences of the word among the normalised tokens
    when [k > 0] and an absent value when [k = 0]; an absent record is
    dropped by the cleaning step and is no plotted point of any run, and
    with distinct titles and distinct capitalised names no plotted point
    at all belongs to that novel and character. *)
Theorem zero_count_is_absent_and_not_plotted
    (novel_paths novel_titles target_words : list string)
    (i j : nat) (path title word text : string) :
  novel_paths !! i = Some path -> novel_titles !! i = Some title ->
  target_words !! j = Some word -> read_file path = ReadOk text ->
  let tbl := table novel_paths novel_titles target_words in
  let k := occurrences word (normalized_words word_tokenize text) in
  let r := {| Novel := title;
              Character := PyStr.capitalize word;
              Frequency := if (0 <? k)%nat then Some k else None |} in
  tbl !! (i * length target_words + j) = Some r /\
  (0 < k -> Frequency r = Some k) /\
  (k = 0 ->
   Frequency r = None /\ (r ∉ dropna tbl) /\
   forall top_n points,
     (run word_tokenize read_file novel_paths novel_titles target_words top_n).1
       = Returns points ->
     (r ∉ points) /\
     (NoDup novel_titles -> NoDup (PyStr.capitalize <$> target_words) ->
      forall r', r' ∈ points ->
                 ~ (Novel r' = title /\ Character r' = PyStr.capitalize word))).
Proof.
  intros Hp Ht Hw Hr tbl k r.
  assert (Hin : word ∈ target_words) by now apply list_elem_of_lookup_2 in Hw.
  assert (He : entry_of target_words path title word = r).
  { unfold entry. now rewrite (looked_up_count_read _ _ _ _ _ text Hr Hin). }
  split; [|split].
  - subst tbl. now rewrite (table_lookup _ _ _ _ _ i j path title word Hp Ht Hw), He.
  - intros Hk. apply Nat.ltb_lt in Hk. subst r. cbn [Frequency]. now rewrite Hk.
  - intros Hk. assert (Hnone : Frequency r = None) by (subst r; cbn; now rewrite Hk).
    split; [exact Hnone|]. split.
    { intros [Hs _]%list_elem_of_filter. rewrite Hnone in Hs. now destruct Hs. }
    intros top_n points Hrun. split.
    { intros Hpt. destruct (run_points _ _ _ _ _ _ _ _ Hrun Hpt) as [_ Hs].
      rewrite Hnone in Hs. now destruct Hs. }
    intros Hnd_t Hnd_w r' Hr' [Hn Hc].
    destruct (run_points _ _ _ _ _ _ _ _ Hrun Hr') as [Htbl Hs].
    apply table_elem in Htbl
      as (i' & j' & path' & title' & word' & Hp' & Ht' & Hw' & ->).
    cbn [Novel Character entry] in Hn, Hc. subst title'.
    assert (i' = i) as -> by exact (NoDup_lookup _ _ _ _ Hnd_t Ht' Ht).
    assert (path' = path) as -> by congruence.
    assert (j' = j) as ->.
    { apply (NoDup_lookup _ _ _ (PyStr.capitalize word) Hnd_w).
      - rewrite list_lookup_fmap, Hw'. cbn [fmap option_fmap option_map]. now rewrite Hc.
      - now rewrite list_lookup_fmap, Hw. }
    assert (word' = word) as -> by congruence.
    rewrite He, Hnone in Hs. now destruct Hs.
Qed.
End TableTheorems.

Section Scenarios.
Variable word_tokenize : string -> list string.
Variable read_file : string -> ReadResult.

(** C5: when the file of novel [i] cannot be read, [prepare_plot_data]
    still returns; the output holds the diagnostic; the block of records
    of that novel is all absent; the block of every novel is what
    [prepare_plot_data] yields for that novel alone; and if no other
    novel bears the same title, every record with that title is absent. *)
Theorem unreadable_novel_is_all_absent
    (novel_paths novel_titles target_words : list string)
    (i : nat) (path title e : string) :
  novel_paths !! i = Some path -> novel_titles !! i = Some title ->
  read_file path = ReadError e ->
  exists df out,
    prepare_plot_data word_tokenize read_file novel_paths novel_titles target_words
      = (df, out) /\
    ("Error reading the file " +:+ path +:+ ": " +:+ e ∈ out) /\
    take (length target_words) (drop (i * length target_words) (records df)) =
      ((λ word, {| Novel := title;
                   Character := PyStr.capitalize word;
                   Frequency := None |}) <$> target_words) /\
    (forall i' path' title',
        novel_paths !! i' = Some path' -> novel_titles !! i' = Some title' ->
        take (length target_words) (drop (i' * length target_words) (records df)) =
        records (prepare_plot_data word_tokenize read_file
                   [path'] [title'] target_words).1) /\
    ((forall i', novel_titles !! i' = Some title -> i' = i) ->
     forall r, r ∈ records df -> Novel r = title -> Frequency r = None).
Proof.
  intros Hp Ht Hr.
  destruct (prepare_plot_data word_tokenize read_file
              novel_paths novel_titles target_words) as [df out] eqn:E.
  exists df, out. split; [reflexivity|].
  assert (Hdf : records df = zip novel_paths novel_titles ≫=
                  novel_block word_tokenize read_file target_words).
  { rewrite <- prepare_plot_data_records. now rewrite E. }
  assert (Hout : out = zip novel_paths novel_titles ≫=
                   novel_output word_tokenize read_file target_words).
  { rewrite <- prepare_plot_data_output. now rewrite E. }
  assert (Hblock : forall i' path' title',
             novel_paths !! i' = Some path' -> novel_titles !! i' = Some title' ->
             take (length target_words)
               (drop (i' * length target_words) (records df)) =
             novel_block word_tokenize read_file target_words (path', title')).
  { intros i' path' title' Hp' Ht'. rewrite Hdf.
    apply (bind_blocks_drop _ _ (novel_block_length _ _ target_words)).
    apply lookup_zip_with_Some. now exists path', title'. }
  assert (Hzero : forall word,
             entry word_tokenize read_file target_words path title word =
             {| Novel := title; Character := PyStr.capitalize word;
                Frequency := None |}).
  { intros word. unfold entry.
    now rewrite (looked_up_count_failed _ _ _ _ _ e Hr). }
  repeat split.
  - rewrite Hout. apply list_elem_of_bind. exists (path, title). split.
    + unfold novel_output, process_novel. cbn [fst]. rewrite Hr. cbn [snd].
      apply list_elem_of_here.
    + apply list_elem_of_lookup. exists i.
      apply lookup_zip_with_Some. now exists path, title.
  - rewrite (Hblock i path title Hp Ht). unfold novel_block.
    apply list_fmap_ext. intros ? word _. apply Hzero.
  - intros i' path' title' Hp' Ht'. rewrite (Hblock i' path' title' Hp' Ht').
    rewrite prepare_plot_data_records. cbn. now rewrite app_nil_r.
  - intros Huniq r Hin Hn.
    assert (Hin' : r ∈ records (prepare_plot_data word_tokenize read_file
                                  novel_paths novel_titles target_words).1)
      by now rewrite E.
    apply table_elem in Hin'
      as (i' & j' & path' & title' & word' & Hp' & Ht' & Hw' & ->).
    cbn [Novel entry] in Hn. subst title'.
    rewrite (Huniq i' Ht') in Hp'.
    assert (path' = path) as -> by congruence.
    now rewrite Hzero.
Qed.

(** C3: the two-novel scenario.  With the two texts read from the two
    paths and tokenised as NLTK does (the clitic ['s] and the full stops
    are tokens of their own), the table for the vocabulary harry, ron is
    (novel1, Harry, 2), (novel1, Ron, absent), (novel2, Harry, 1),
    (novel2, Ron, 1), in that order, and nothing is printed. *)
Theorem end_to_end_two_novels (path1 path2 : string) :
  read_file path1 = ReadOk "Harry ran. Harry's wand glowed." ->
  read_file path2 = ReadOk "Ron and Harry talked." ->
  word_tokenize "Harry ran. Harry's wand glowed." =
    ["Harry"; "ran"; "."; "Harry"; "'s"; "wand"; "glowed"; "."] ->
  word_tokenize "Ron and Harry talked." =
    ["Ron"; "and"; "Harry"; "talked"; "."] ->
  prepare_plot_data word_tokenize read_file
    [path1; path2] ["novel1"; "novel2"] ["harry"; "ron"] =
  (Frame [ {| Novel := "novel1"; Character := "Harry"; Frequency := Some 2 |};
           {| Novel := "novel1"; Character := "Ron"; Frequency := None |};
           {| Novel := "novel2"; Character := "Harry"; Frequency := Some 1 |};
           {| Novel := "novel2"; Character := "Ron"; Frequency := Some 1 |} ],
   []).
Proof.
  intros R1 R2 T1 T2.
  unfold prepare_plot_data. cbn [zip zip_with prepare_loop].
  unfold process_novel. rewrite R1, R2.
  unfold count_word_frequencies, normalized_words. rewrite T1, T2.
  vm_compute. reflexivity.
Qed.
End Scenarios.

(** ** Group keys: distinct names in code-point order *)

Lemma str_lt_trans (a b c : string) : str_lt a b -> str_lt b c -> str_lt a c.
Proof.
  unfold str_lt. intros H1 H2.
  apply String_as_OT.cmp_lt in H1, H2. apply String_as_OT.cmp_lt.
  exact (String_as_OT.lt_trans _ _ _ H1 H2).
Qed.

Lemma str_lt_irrefl (a : string) : ~ str_lt a a.
Proof.
  unfold str_lt. intros H. apply String_as_OT.cmp_lt in H.
  apply String_as_OT.lt_not_eq in H. now apply H.
Qed.

Lemma compare_Gt_lt (a b : string) : String.compare a b = Gt -> str_lt b a.
Proof.
  unfold str_lt. intros H. rewrite String.compare_antisym, H. reflexivity.
Qed.

Lemma insert_key_elem (k x : string) (ks : list string) :
  x ∈ insert_key k ks <-> x = k \/ x ∈ ks.
Proof.
  induction ks as [|k' ks IH]; cbn [insert_key].
  - rewrite list_elem_of_singleton, elem_of_nil. tauto.
  - destruct (String.compare k k') eqn:E.
    + apply String.compare_eq_iff in E as ->. rewrite elem_of_cons. tauto.
    + rewrite !elem_of_cons. tauto.
    + rewrite !elem_of_cons, IH. tauto.
Qed.

Lemma insert_key_sorted (k : string) (ks : list string) :
  StronglySorted str_lt ks -> StronglySorted str_lt (insert_key k ks).
Proof.
  induction 1 as [|k' ks Hs IH Hall]; cbn [insert_key].
  - repeat constructor.
  - destruct (String.compare k k') eqn:E.
    + now constructor.
    + constructor; [now constructor|]. constructor; [exact E|].
      eapply Forall_impl; [exact Hall|]. intros y Hy.
      now apply (str_lt_trans k k' y).
    + constructor; [exact IH|]. apply Forall_forall. intros y Hy.
      apply insert_key_elem in Hy as [->|Hy].
      * now apply compare_Gt_lt.
      * rewrite Forall_forall in Hall. now apply Hall.
Qed.

Lemma group_keys_sorted (rows : list FrequencyRecord) :
  StronglySorted str_lt (group_keys rows).
Proof.
  unfold group_keys. induction (Character <$> rows) as [|c cs IH]; cbn [foldr].
  - constructor.
  - now apply insert_key_sorted.
Qed.

Lemma group_keys_elem (rows : list FrequencyRecord) (c : string) :
  c ∈ group_keys rows <-> c ∈ Character <$> rows.
Proof.
  unfold group_keys. induction (Character <$> rows) as [|c' cs IH]; cbn [foldr].
  - reflexivity.
  - rewrite insert_key_elem, elem_of_cons, IH. tauto.
Qed.

Lemma str_sorted_NoDup (ks : list string) : StronglySorted str_lt ks -> NoDup ks.
Proof.
  induction 1 as [|k ks Hs IH Hall]; constructor; [|exact IH].
  intros Hin. rewrite Forall_forall in Hall.
  exact (str_lt_irrefl k (Hall k Hin)).
Qed.

Lemma group_keys_NoDup (rows : list FrequencyRecord) : NoDup (group_keys rows).
Proof. apply str_sorted_NoDup, group_keys_sorted. Qed.

(** ** The stable descending sort *)

Lemma insert_desc_perm (x : string * Z) (l : list (string * Z)) :
  insert_desc x l ≡ₚ x :: l.
Proof.
  induction l as [|y l IH]; cbn [insert_desc]; [reflexivity|].
  destruct (x.2 <? y.2)%Z; [|reflexivity].
  rewrite IH. apply Permutation_swap.
Qed.

Lemma stable_sort_desc_perm (l : list (string * Z)) : stable_sort_desc l ≡ₚ l.
Proof.
  induction l as [|x l IH]; [reflexivity|].
  unfold stable_sort_desc. cbn [foldr]. rewrite insert_desc_perm.
  now apply Permutation_skip.
Qed.

Lemma before_le (x y : string * Z) : before x y -> (y.2 <= x.2)%Z.
Proof. unfold before. lia. Qed.

Lemma insert_desc_sorted (x : string * Z) (l : list (string * Z)) :
  StronglySorted before l -> Forall (by_key x) l ->
  StronglySorted before (insert_desc x l).
Proof.
  induction 1 as [|y l Hs IH Hall]; intros Hkey; cbn [insert_desc].
  - repeat constructor.
  - apply Forall_cons in Hkey as [Hxy Hkey].
    destruct (Z.ltb_spec x.2 y.2) as [Hlt|Hge].
    + constructor; [now apply IH|].
      apply Forall_forall. intros z Hz.
      rewrite insert_desc_perm in Hz. apply elem_of_cons in Hz as [->|Hz].
      * now left.
      * rewrite Forall_forall in Hall. now apply Hall.
    + constructor; [now constructor|].
      apply Forall_forall. intros z Hz.
      assert (Hzy : (z.2 <= y.2)%Z).
      { apply elem_of_cons in Hz as [->|Hz]; [lia|].
        rewrite Forall_forall in Hall. now apply before_le, Hall. }
      assert (Hxz : by_key x z).
      { apply elem_of_cons in Hz as [->|Hz]; [exact Hxy|].
        rewrite Forall_forall in Hkey. now apply Hkey. }
      unfold before. unfold by_key in Hxz.
      destruct (Z.eq_dec x.2 z.2); [right; now split | left; lia].
Qed.

Lemma stable_sort_desc_sorted (l : list (string * Z)) :
  StronglySorted by_key l -> StronglySorted before (stable_sort_desc l).
Proof.
  induction 1 as [|x l Hs IH Hall]; unfold stable_sort_desc; cbn [foldr].
  - constructor.
  - apply insert_desc_sorted; [exact IH|].
    apply Forall_forall. intros z Hz.
    change (foldr insert_desc [] l) with (stable_sort_desc l) in Hz.
    rewrite stable_sort_desc_perm in Hz.
    rewrite Forall_forall in Hall. now apply Hall.
Qed.

Lemma present_elem (s : Series) (k : string) (v : Z) :
  (k, v) ∈ present s <-> (k, Some v) ∈ s.
Proof.
  unfold present. rewrite list_elem_of_omap. split.
  - intros ([k' [v'|]] & Hin & Heq); cbn in Heq; [|discriminate].
    now injection Heq as -> ->.
  - intros Hin. now exists (k, Some v).
Qed.

Lemma present_sorted (s : Series) :
  StronglySorted by_key s -> StronglySorted by_key (present s).
Proof.
  induction 1 as [|[k [v|]] s Hs IH Hall]; cbn; [constructor| |exact IH].
  constructor; [exact IH|]. apply Forall_forall. intros [k' v'] Hin.
  apply present_elem in Hin. rewrite Forall_forall in Hall.
  exact (Hall _ Hin).
Qed.

Lemma filter_sorted {A} (R : relation A) (P : A -> Prop)
    `{!forall x, Decision (P x)} (l : list A) :
  StronglySorted R l -> StronglySorted R (filter P l).
Proof.
  induction 1 as [|x l Hs IH Hall]; [constructor|].
  rewrite filter_cons. destruct (decide (P x)); [|exact IH].
  constructor; [exact IH|]. apply Forall_forall. intros y Hy.
  apply list_elem_of_filter in Hy as [_ Hy].
  rewrite Forall_forall in Hall. now apply Hall.
Qed.

Lemma present_missing_perm (s : Series) :
  ((λ e : string * Z, (e.1, Some e.2)) <$> present s) ++ missing s ≡ₚ s.
Proof.
  unfold missing. induction s as [|[k [v|]] s IH].
  - reflexivity.
  - change (present ((k, Some v) :: s)) with ((k, v) :: present s).
    rewrite filter_cons_False by (cbn; congruence).
    rewrite fmap_cons. cbn [fst snd app]. now apply Permutation_skip.
  - change (present ((k, None) :: s)) with (present s).
    rewrite filter_cons_True by reflexivity.
    rewrite <- Permutation_middle. now apply Permutation_skip.
Qed.

Lemma missing_sorted (s : Series) :
  StronglySorted by_key s -> StronglySorted outranks (missing s).
Proof.
  unfold missing.
  induction 1 as [|x s Hs IH Hall]; [constructor|].
  rewrite filter_cons. destruct (decide (x.2 = None)) as [Hx|_]; [|exact IH].
  constructor; [exact IH|]. apply Forall_forall. intros y Hy.
  apply list_elem_of_filter in Hy as [Hnone Hy].
  rewrite Forall_forall in Hall. specialize (Hall y Hy).
  unfold outranks. rewrite Hx, Hnone. exact Hall.
Qed.

(** The sorted series has the entries of the series. *)
Lemma sort_values_desc_perm (s : Series) : sort_values_desc s ≡ₚ s.
Proof.
  unfold sort_values_desc. rewrite stable_sort_desc_perm.
  apply present_missing_perm.
Qed.

(** On a series indexed in key order, it is ranked by [outranks]. *)
Lemma sort_values_desc_sorted (s : Series) :
  StronglySorted by_key s -> StronglySorted outranks (sort_values_desc s).
Proof.
  intros Hs. unfold sort_values_desc. apply StronglySorted_app_2.
  - intros x y Hx Hy.
    apply list_elem_of_fmap in Hx as ([k v] & -> & _).
    apply list_elem_of_filter in Hy as [Hy _].
    unfold outranks. cbn. now rewrite Hy.
  - apply (StronglySorted_fmap _ before);
      [|now apply stable_sort_desc_sorted, present_sorted].
    intros [k v] [k' v'] H. exact H.
  - now apply missing_sorted.
Qed.

(** In a ranked list, what [take] keeps outranks what it leaves. *)
Lemma take_outranks {A} (R : relation A) (l : list A) (m : nat) (x y : A) :
  StronglySorted R l -> x ∈ take m l -> y ∈ l -> y ∉ take m l -> R x y.
Proof.
  intros Hs Hx Hy Hny. rewrite <- (take_drop m l) in Hs, Hy.
  apply elem_of_app in Hy as [Hy|Hy]; [contradiction|].
  exact (StronglySorted_app_1_elem_of R _ _ x y Hs Hx Hy).
Qed.

(** ** Series built by [groupby]: one entry per group key *)

Section GroupedSeries.
Variable rows : list FrequencyRecord.
Variable f : string -> option Z.

Local Abbreviation grouped := ((λ k, (k, f k)) <$> group_keys rows).

Lemma grouped_keys : grouped.*1 = group_keys rows.
Proof.
  rewrite <- list_fmap_compose. apply list_fmap_id.
Qed.

Lemma grouped_sorted : StronglySorted by_key grouped.
Proof.
  apply (StronglySorted_fmap _ str_lt); [|apply group_keys_sorted].
  intros x y H. exact H.
Qed.

Lemma grouped_elem (k : string) (v : option Z) :
  (k, v) ∈ grouped <-> k ∈ Character <$> rows /\ v = f k.
Proof.
  rewrite list_elem_of_fmap, <- group_keys_elem. split.
  - intros (k' & [= -> ->] & Hk). now split.
  - intros [Hk ->]. now exists k.
Qed.

Lemma grouped_length : length grouped = length (group_keys rows).
Proof. apply length_fmap. Qed.

Lemma sorted_grouped_keys_NoDup : NoDup (sort_values_desc grouped).*1.
Proof.
  rewrite sort_values_desc_perm, grouped_keys. apply group_keys_NoDup.
Qed.

Lemma sorted_grouped_elem (k : string) (v : option Z) :
  (k, v) ∈ sort_values_desc grouped <-> k ∈ Character <$> rows /\ v = f k.
Proof. rewrite sort_values_desc_perm. apply grouped_elem. Qed.

Lemma sorted_grouped_key (k : string) :
  k ∈ (sort_values_desc grouped).*1 <-> k ∈ Character <$> rows.
Proof. now rewrite sort_values_desc_perm, grouped_keys, group_keys_elem. Qed.

(** A key that [take] keeps outranks every key that it leaves. *)
Lemma take_sorted_grouped (m : nat) (c c' : string) :
  c ∈ (take m (sort_values_desc grouped)).*1 ->
  c' ∈ Character <$> rows ->
  c' ∉ (take m (sort_values_desc grouped)).*1 ->
  outranks (c, f c) (c', f c').
Proof.
  intros Hc Hc' Hnc'.
  apply list_elem_of_fmap in Hc as ([k v] & -> & Hin). cbn [fst].
  assert (Hv : v = f k).
  { apply subseteq_take in Hin. now apply sorted_grouped_elem in Hin. }
  subst v.
  apply (take_outranks outranks (sort_values_desc grouped) m).
  - apply sort_values_desc_sorted, grouped_sorted.
  - exact Hin.
  - now apply sorted_grouped_elem.
  - intros Hin'. apply Hnc'. apply list_elem_of_fmap. now exists (c', f c').
Qed.
End GroupedSeries.

(** ** Selector *)

Lemma change_in_frequency_grouped (rows : list FrequencyRecord) :
  change_in_frequency rows = (λ k, (k, spread_of rows k)) <$> group_keys rows.
Proof. reflexivity. Qed.

Lemma filter_top_characters_frame (rows : list FrequencyRecord) (top_n : Z) :
  filter_top_characters (Frame rows) top_n =
  Returns (Frame (filter (λ r, Character r ∈ top_characters rows top_n) rows)).
Proof. reflexivity. Qed.

(** The frame without columns, built from an empty list of records, has no
    Character column to group by. *)
Lemma filter_top_characters_no_columns (top_n : Z) :
  filter_top_characters (pd_DataFrame []) top_n = Raises (KeyError "Character").
Proof. reflexivity. Qed.

Lemma top_characters_positive (rows : list FrequencyRecord) (top_n : Z) :
  (0 < top_n)%Z ->
  top_characters rows top_n =
  (take (Z.to_nat top_n) (sort_values_desc (change_in_frequency rows))).*1.
Proof.
  intros H. unfold top_characters, nlargest.
  now destruct (Z.leb_spec top_n 0); [lia|].
Qed.

Lemma top_characters_nonpositive (rows : list FrequencyRecord) (top_n : Z) :
  (top_n <= 0)%Z -> top_characters rows top_n = [].
Proof.
  intros H. unfold top_characters, nlargest.
  now destruct (Z.leb_spec top_n 0); [|lia].
Qed.

(** C8: the output of [filter_top_characters] is the input restricted to
    the records whose character is selected: the same records, unmodified,
    in their original relative order. *)
Theorem filter_top_characters_keeps_selected_rows
    (rows : list FrequencyRecord) (top_n : Z) :
  exists out,
    filter_top_characters (Frame rows) top_n = Returns (Frame out) /\
    out = filter (λ r, Character r ∈ top_characters rows top_n) rows /\
    out `sublist_of` rows /\
    forall r, r ∈ out <-> r ∈ rows /\ Character r ∈ top_characters rows top_n.
Proof.
  eexists. split; [apply filter_top_characters_frame|].
  split; [reflexivity|]. split.
  - apply sublist_filter.
  - intros r. rewrite list_elem_of_filter. tauto.
Qed.

(** C1, as stated, fails on a tie: Ron precedes Harry in the table and
    both have spread 2, yet with N = 1 it is Harry that is kept, the
    smaller name in the order of the group keys. *)
Lemma top_characters_tie_not_by_table_order :
  let rows :=
    [ {| Novel := "novel1"; Character := "Ron"; Frequency := Some 3 |};
      {| Novel := "novel1"; Character := "Harry"; Frequency := Some 5 |};
      {| Novel := "novel2"; Character := "Ron"; Frequency := Some 1 |};
      {| Novel := "novel2"; Character := "Harry"; Frequency := Some 3 |} ] in
  spread_of rows "Ron" = Some 2%Z /\ spread_of rows "Harry" = Some 2%Z /\
  Character <$> rows !! 0 = Some "Ron" /\
  top_characters rows 1 = ["Harry"] /\
  filter_top_characters (Frame rows) 1 =
  Returns (Frame
    [ {| Novel := "novel1"; Character := "Harry"; Frequency := Some 5 |};
      {| Novel := "novel2"; Character := "Harry"; Frequency := Some 3 |} ]).
Proof. vm_compute. repeat split; reflexivity. Qed.

(** C1, amended: [filter_top_characters] keeps the records of min(N,
    number of characters) distinct characters of the table, and every
    kept character outranks every character left out: it has a larger
    spread, or a spread where the other has none, or the same spread
    (or both none) and the smaller name in code-point order. *)
Theorem top_characters_by_spread_then_name
    (rows : list FrequencyRecord) (top_n : Z) :
  let selected := top_characters rows top_n in
  filter_top_characters (Frame rows) top_n =
    Returns (Frame (filter (λ r, Character r ∈ selected) rows)) /\
  NoDup selected /\
  length selected = Nat.min (Z.to_nat top_n) (length (group_keys rows)) /\
  (forall c, c ∈ selected -> c ∈ Character <$> rows) /\
  (forall c c',
      c ∈ selected -> c' ∈ Character <$> rows -> c' ∉ selected ->
      outranks (c, spread_of rows c) (c', spread_of rows c')).
Proof.
  intros selected. split; [apply filter_top_characters_frame|].
  destruct (Z.le_gt_cases top_n 0) as [Hn|Hn].
  - subst selected. rewrite (top_characters_nonpositive rows top_n Hn).
    replace (Z.to_nat top_n) with 0 by lia.
    repeat split.
    + constructor.
    + intros c H. now apply elem_of_nil in H.
    + intros c c' H. now apply elem_of_nil in H.
  - subst selected. rewrite (top_characters_positive rows top_n) by lia.
    rewrite change_in_frequency_grouped. repeat split.
    + rewrite fmap_take.
      eapply sublist_NoDup; [apply sorted_grouped_keys_NoDup | apply sublist_take].
    + rewrite length_fmap, length_take.
      now rewrite sort_values_desc_perm, length_fmap.
    + intros c Hc. rewrite fmap_take in Hc. apply subseteq_take in Hc.
      now apply sorted_grouped_key in Hc.
    + intros c c'. apply take_sorted_grouped.
Qed.

(** ** Spreads of characters that are absent, or present once *)

Lemma skipna_none (f : nat -> nat -> nat) (x : list (option nat)) :
  omap id x = [] -> foldr (skipna f) None x = None.
Proof.
  induction x as [|[a|] x IH]; cbn; [reflexivity|discriminate|exact IH].
Qed.

Lemma skipna_single (f : nat -> nat -> nat) (x : list (option nat)) (k : nat) :
  omap id x = [k] -> foldr (skipna f) None x = Some k.
Proof.
  induction x as [|[a|] x IH]; cbn; [discriminate| |exact IH].
  intros [= -> Hx]. now rewrite (skipna_none f x Hx).
Qed.

Lemma group_values_absent (rows : list FrequencyRecord) (c : string) :
  (forall r, r ∈ rows -> Character r = c -> Frequency r = None) ->
  omap id (group_values c rows) = [].
Proof.
  intros H. unfold group_values, group_rows.
  induction rows as [|r rows IH]; [reflexivity|].
  rewrite filter_cons. destruct (decide (Character r = c)) as [Hc|_].
  - rewrite fmap_cons. cbn [omap list_omap]. rewrite (H r) by (left || exact Hc).
    cbn. apply IH. intros r' Hr'. apply H. now right.
  - apply IH. intros r' Hr'. apply H. now right.
Qed.

Lemma spread_absent (x : list (option nat)) : omap id x = [] -> spread x = None.
Proof.
  intros H. unfold spread, series_max. now rewrite (skipna_none _ x H).
Qed.

Lemma spread_single (x : list (option nat)) (k : nat) :
  omap id x = [k] -> spread x = Some 0%Z.
Proof.
  intros H. unfold spread, series_max, series_min.
  rewrite !(skipna_single _ x k H). f_equal. lia.
Qed.

Lemma sorted_present_length (s : Series) :
  length ((λ e : string * Z, (e.1, Some e.2)) <$> stable_sort_desc (present s)) =
  length (present s).
Proof. now rewrite length_fmap, stable_sort_desc_perm. Qed.

(** An entry without a value is among the first [m] only if all the
    entries with a value are, and there are fewer than [m] of those. *)
Lemma take_missing (s : Series) (m : nat) (k : string) :
  (k, None) ∈ take m (sort_values_desc s) -> length (present s) < m.
Proof.
  unfold sort_values_desc. rewrite take_app, sorted_present_length.
  intros [Hin|Hin]%elem_of_app.
  - apply subseteq_take in Hin.
    apply list_elem_of_fmap in Hin as (e & Heq & _). discriminate Heq.
  - destruct (m - length (present s)) eqn:E; [|lia].
    now apply elem_of_nil in Hin.
Qed.

(** C9, as stated, fails: Ron is absent from both novels, his spread is
    undefined, and with N = 10 he is selected all the same, since the
    entries without a value fill the selection after the others. *)
Lemma absent_everywhere_still_selected :
  let rows :=
    [ {| Novel := "novel1"; Character := "Harry"; Frequency := Some 2 |};
      {| Novel := "novel1"; Character := "Ron"; Frequency := None |};
      {| Novel := "novel2"; Character := "Harry"; Frequency := Some 1 |};
      {| Novel := "novel2"; Character := "Ron"; Frequency := None |} ] in
  spread_of rows "Ron" = None /\
  top_characters rows 10 = ["Harry"; "Ron"] /\
  filter_top_characters (Frame rows) 10 = Returns (Frame rows).
Proof. vm_compute. repeat split; reflexivity. Qed.

(** C9, amended: a character absent from every novel has an undefined
    spread and ranks after every character with a defined one: it is
    selected only when N exceeds the number of characters with a defined
    spread, all of which are then selected too.  A character present in
    exactly one novel has spread 0. *)
Theorem undefined_spread_ranks_last (rows : list FrequencyRecord) (c : string) :
  ((forall r, r ∈ rows -> Character r = c -> Frequency r = None) ->
   spread_of rows c = None /\
   forall top_n,
     c ∈ top_characters rows top_n ->
     length (present (change_in_frequency rows)) < Z.to_nat top_n /\
     forall c', c' ∈ Character <$> rows -> spread_of rows c' <> None ->
                c' ∈ top_characters rows top_n) /\
  (forall k, omap id (group_values c rows) = [k] -> spread_of rows c = Some 0%Z).
Proof.
  split; [|intros k; apply spread_single].
  intros Habs.
  assert (Hnone : spread_of rows c = None)
    by now apply spread_absent, group_values_absent.
  split; [exact Hnone|]. intros top_n Hsel.
  destruct (Z.le_gt_cases top_n 0) as [Hn|Hn].
  { rewrite (top_characters_nonpositive rows top_n Hn) in Hsel.
    now apply elem_of_nil in Hsel. }
  rewrite (top_characters_positive rows top_n) in * by lia. split.
  - apply list_elem_of_fmap in Hsel as ([k v] & -> & Hin). cbn [fst] in *.
    assert (Hv : v = spread_of rows k).
    { apply subseteq_take in Hin. rewrite change_in_frequency_grouped in Hin.
      now apply sorted_grouped_elem in Hin. }
    rewrite Hnone in Hv. subst v. exact (take_missing _ _ _ Hin).
  - intros c' Hc' Hdef.
    destruct (decide (c' ∈ (take (Z.to_nat top_n)
                (sort_values_desc (change_in_frequency rows))).*1))
      as [Hin|Hout]; [exact Hin|].
    rewrite change_in_frequency_grouped in Hsel, Hout.
    pose proof (take_sorted_grouped rows (spread_of rows) _ c c' Hsel Hc' Hout) as H.
    unfold outranks in H. cbn [fst snd] in H. rewrite Hnone in H.
    destruct (spread_of rows c'); [contradiction | congruence].
Qed.

(** ** Orderer *)

Lemma max_appearance_grouped (rows : list FrequencyRecord) :
  max_appearance rows =
  (λ k, (k, Z.of_nat <$> max_of rows k)) <$> group_keys rows.
Proof. reflexivity. Qed.

Lemma StronglySorted_elem_impl {A} (R R' : relation A) (l : list A) :
  (forall x y, x ∈ l -> y ∈ l -> R x y -> R' x y) ->
  StronglySorted R l -> StronglySorted R' l.
Proof.
  intros Himpl Hs. induction Hs as [|x l Hs IH Hall]; [constructor|].
  constructor.
  - apply IH. intros y z Hy Hz. apply Himpl; now right.
  - apply Forall_forall. intros y Hy. rewrite Forall_forall in Hall.
    apply Himpl; [left | now right | now apply Hall].
Qed.

Lemma outranks_not_below (k k' : string) (a b : option nat) :
  outranks (k, Z.of_nat <$> a) (k', Z.of_nat <$> b) -> not_below a b.
Proof.
  unfold outranks, not_below. destruct a, b; cbn; try tauto. lia.
Qed.

(** The characters come out with non-increasing maxima. *)
Lemma sorted_characters_not_below (rows : list FrequencyRecord) :
  StronglySorted (λ c c', not_below (max_of rows c) (max_of rows c'))
    (sorted_characters rows).
Proof.
  unfold sorted_characters. rewrite max_appearance_grouped.
  apply (StronglySorted_fmap fst
           (λ x y : string * option Z,
              not_below (max_of rows x.1) (max_of rows y.1))).
  { intros x y H. exact H. }
  eapply StronglySorted_elem_impl;
    [|apply sort_values_desc_sorted, grouped_sorted].
  intros [k v] [k' v'] Hx Hy Hr.
  apply sorted_grouped_elem in Hx as [_ ->].
  apply sorted_grouped_elem in Hy as [_ ->].
  cbn [fst]. exact (outranks_not_below _ _ _ _ Hr).
Qed.

Lemma group_rows_remove (rows : list FrequencyRecord) (k c : string) :
  c <> k ->
  group_rows c (filter (λ r, Character r <> k) rows) = group_rows c rows.
Proof.
  intros Hne. unfold group_rows. rewrite list_filter_filter.
  apply list_filter_iff. intros r. split; [tauto|].
  intros Hc. split; [exact Hc | congruence].
Qed.

(** Grouping the rows by distinct keys that cover them reorders them
    without losing or repeating any. *)
Lemma group_by_keys_perm (ks : list string) (rows : list FrequencyRecord) :
  NoDup ks -> (forall r, r ∈ rows -> Character r ∈ ks) ->
  (ks ≫= λ c, group_rows c rows) ≡ₚ rows.
Proof.
  intros Hnd. revert rows. induction Hnd as [|k ks Hk Hnd IH]; intros rows Hcov.
  - destruct rows as [|r rows]; [reflexivity|].
    specialize (Hcov r (list_elem_of_here _ _)). now apply elem_of_nil in Hcov.
  - cbn [mbind list_bind].
    change (list_bind _ _ (λ c, group_rows c rows) ks)
      with (ks ≫= λ c, group_rows c rows).
    trans ((group_rows k rows ++ filter (λ r, Character r <> k) rows)%list);
      [|apply filter_app_complement].
    apply Permutation_app; [reflexivity|].
    trans (ks ≫= λ c, group_rows c (filter (λ r, Character r <> k) rows)).
    + erewrite Forall_bind_ext; [reflexivity|].
      apply Forall_forall. intros c Hc. symmetry.
      apply group_rows_remove. intros ->. contradiction.
    + apply IH. intros r [Hne Hr]%list_elem_of_filter.
      specialize (Hcov r Hr). apply elem_of_cons in Hcov as [Heq|Hin];
        [contradiction | exact Hin].
Qed.

(** C7, as stated, fails: Harry and Ron both have maximum 2, so their
    order, whichever way the tie falls, is not strictly descending. *)
Lemma equal_maxima_not_strictly_descending :
  let rows :=
    [ {| Novel := "novel1"; Character := "Harry"; Frequency := Some 2 |};
      {| Novel := "novel1"; Character := "Ron"; Frequency := Some 1 |};
      {| Novel := "novel2"; Character := "Harry"; Frequency := Some 1 |};
      {| Novel := "novel2"; Character := "Ron"; Frequency := Some 2 |} ] in
  let strictly c c' := strictly_above (max_of rows c) (max_of rows c') in
  max_of rows "Harry" = Some 2 /\ max_of rows "Ron" = Some 2 /\
  sorted_characters rows = ["Harry"; "Ron"] /\
  ~ StronglySorted strictly (sorted_characters rows) /\
  (forall chars, chars ≡ₚ ["Harry"; "Ron"] -> ~ StronglySorted strictly chars).
Proof.
  intros rows strictly.
  assert (Hany : forall chars,
             chars ≡ₚ ["Harry"; "Ron"] -> ~ StronglySorted strictly chars).
  { intros chars Hp Hs. symmetry in Hp.
    apply Permutation_length_2_inv in Hp as [-> | ->];
      apply StronglySorted_cons in Hs as [Hall _];
      apply Forall_cons in Hall as [H _];
      vm_compute in H; lia. }
  repeat split; try reflexivity; [|exact Hany].
  apply Hany. reflexivity.
Qed.

(** C7, amended: [order_characters_by_max_appearance] returns the records
    grouped contiguously, character by character, the characters being
    the distinct characters of the input in order of non-increasing
    maximum present frequency, those without any present frequency last;
    the output is a rearrangement of the input records. *)
Theorem order_characters_non_increasing_max (rows : list FrequencyRecord) :
  let chars := sorted_characters rows in
  let ordered := chars ≫= λ c, group_rows c rows in
  order_characters_by_max_appearance (Frame rows) = Returns (Frame ordered) /\
  NoDup chars /\
  (forall c, c ∈ chars <-> c ∈ Character <$> rows) /\
  StronglySorted (λ c c', not_below (max_of rows c) (max_of rows c')) chars /\
  ordered ≡ₚ rows.
Proof.
  intros chars ordered.
  assert (Hnd : NoDup chars).
  { subst chars. unfold sorted_characters. rewrite max_appearance_grouped.
    apply sorted_grouped_keys_NoDup. }
  assert (Hel : forall c, c ∈ chars <-> c ∈ Character <$> rows).
  { intros c. subst chars. unfold sorted_characters.
    rewrite max_appearance_grouped. apply sorted_grouped_key. }
  split; [reflexivity|]. split; [exact Hnd|]. split; [exact Hel|].
  split; [apply sorted_characters_not_below|].
  apply group_by_keys_perm; [exact Hnd|].
  intros r Hr. apply Hel. now apply list_elem_of_fmap_2.
Qed.

(** ** The theorems at work on the two-novel example *)

Lemma end_to_end_two_novels_example :
  prepare_plot_data prose_tokenize two_novels
    ["novel1.txt"; "novel2.txt"] ["novel1"; "novel2"] ["harry"; "ron"] =
  (Frame [ {| Novel := "novel1"; Character := "Harry"; Frequency := Some 2 |};
           {| Novel := "novel1"; Character := "Ron"; Frequency := None |};
           {| Novel := "novel2"; Character := "Harry"; Frequency := Some 1 |};
           {| Novel := "novel2"; Character := "Ron"; Frequency := Some 1 |} ],
   []).
Proof.
  apply (end_to_end_two_novels prose_tokenize two_novels "novel1.txt" "novel2.txt");
    reflexivity.
Defined.

Lemma one_record_per_pair_example :
  length ["novel1.txt"; "novel2.txt"] = length ["novel1"; "novel2"] /\
  length (records (prepare_plot_data prose_tokenize two_novels
                     ["novel1.txt"; "novel2.txt"] ["novel1"; "novel2"]
                     ["harry"; "ron"]).1) = 2 * 2.
Proof.
  split; [reflexivity|].
  exact (proj1 (prepare_plot_data_one_record_per_pair prose_tokenize two_novels
                  ["novel1.txt"; "novel2.txt"] ["novel1"; "novel2"]
                  ["harry"; "ron"] eq_refl)).
Defined.

Lemma zero_count_example :
  two_novels "novel1.txt" = ReadOk "Harry ran. Harry's wand glowed." /\
  records (prepare_plot_data prose_tokenize two_novels
             ["novel1.txt"; "novel2.txt"] ["novel1"; "novel2"]
             ["harry"; "ron"]).1 !! 1 =
  Some {| Novel := "novel1"; Character := "Ron"; Frequency := None |}.
Proof.
  split; [reflexivity|].
  exact (proj1 (zero_count_is_absent_and_not_plotted prose_tokenize two_novels
                  ["novel1.txt"; "novel2.txt"] ["novel1"; "novel2"]
                  ["harry"; "ron"] 0 1 "novel1.txt" "novel1" "ron"
                  "Harry ran. Harry's wand glowed."
                  eq_refl eq_refl eq_refl eq_refl)).
Defined.

Lemma unreadable_novel_example :
  two_novels "missing.txt" = ReadError "[Errno 2] No such file or directory" /\
  exists df out,
    prepare_plot_data prose_tokenize two_novels
      ["novel1.txt"; "missing.txt"] ["novel1"; "novel2"] ["harry"; "ron"]
      = (df, out) /\
    ("Error reading the file missing.txt: [Errno 2] No such file or directory"
       ∈ out) /\
    drop 2 (records df) =
      [ {| Novel := "novel2"; Character := "Harry"; Frequency := None |};
        {| Novel := "novel2"; Character := "Ron"; Frequency := None |} ].
Proof.
  split; [reflexivity|].
  destruct (unreadable_novel_is_all_absent prose_tokenize two_novels
              ["novel1.txt"; "missing.txt"] ["novel1"; "novel2"]
              ["harry"; "ron"] 1 "missing.txt" "novel2"
              "[Errno 2] No such file or directory" eq_refl eq_refl eq_refl)
    as (df & out & Hrun & Hout & Hblock & _).
  exists df, out. split; [exact Hrun|]. split; [exact Hout|].
  injection Hrun as <- _. exact Hblock.
Defined.

Lemma tie_by_name_example :
  let rows :=
    [ {| Novel := "novel1"; Character := "Ron"; Frequency := Some 3 |};
      {| Novel := "novel1"; Character := "Harry"; Frequency := Some 5 |};
      {| Novel := "novel2"; Character := "Ron"; Frequency := Some 1 |};
      {| Novel := "novel2"; Character := "Harry"; Frequency := Some 3 |} ] in
  outranks ("Harry", spread_of rows "Harry") ("Ron", spread_of rows "Ron").
Proof.
  intros rows.
  apply (top_characters_by_spread_then_name rows 1);
    apply (bool_decide_unpack _); vm_compute; exact I.
Defined.

Lemma undefined_spread_example :
  let rows :=
    [ {| Novel := "novel1"; Character := "Harry"; Frequency := Some 2 |};
      {| Novel := "novel1"; Character := "Ron"; Frequency := None |};
      {| Novel := "novel2"; Character := "Harry"; Frequency := Some 1 |};
      {| Novel := "novel2"; Character := "Ron"; Frequency := None |} ] in
  spread_of rows "Ron" = None /\
  length (present (change_in_frequency rows)) < Z.to_nat 10.
Proof.
  intros rows.
  assert (Habs : forall r, r ∈ rows -> Character r = "Ron" -> Frequency r = None).
  { intros r Hr Hc.
    repeat (apply elem_of_cons in Hr as [-> | Hr];
            [first [reflexivity | discriminate Hc]|]).
    now apply elem_of_nil in Hr. }
  destruct (proj1 (undefined_spread_ranks_last rows "Ron") Habs) as [Hnone Hsel].
  split; [exact Hnone|].
  apply (Hsel 10%Z). apply (bool_decide_unpack _). vm_compute. exact I.
Defined.

(** * Further properties of the script *)

(** ** Case mappings and stripping *)

Lemma lower_char_idem (c : ascii) :
  PyStr.lower_char (PyStr.lower_char c) = PyStr.lower_char c.
Proof. destruct c as [[] [] [] [] [] [] [] []]; reflexivity. Qed.

Lemma lower_upper_char (c : ascii) :
  is_ascii_char c = true ->
  PyStr.lower_char (PyStr.upper_char c) = PyStr.lower_char c.
Proof.
  destruct c as [[] [] [] [] [] [] [] []]; intros H;
    (reflexivity || discriminate H).
Qed.

Lemma isspace_lower_char (c : ascii) :
  isspace_char (PyStr.lower_char c) = isspace_char c.
Proof. destruct c as [[] [] [] [] [] [] [] []]; reflexivity. Qed.

Lemma lower_letter_a_z (c : ascii) :
  PyStr.isalpha_char c = true -> outside_a_z (PyStr.lower_char c) = false.
Proof. destruct c as [[] [] [] [] [] [] [] []]; intros H; (reflexivity || discriminate H). Qed.

Lemma lower_idem (s : string) : PyStr.lower (PyStr.lower s) = PyStr.lower s.
Proof.
  induction s as [|c s IH]; [reflexivity|].
  cbn [PyStr.lower]. now rewrite lower_char_idem, IH.
Qed.

(** On an ASCII word, capitalising changes the case of letters only. *)
Lemma lower_capitalize (w : string) :
  isascii w = true -> PyStr.lower (PyStr.capitalize w) = PyStr.lower w.
Proof.
  destruct w as [|c w]; [reflexivity|].
  unfold isascii. cbn [all_chars]. intros [Hc _]%andb_true_iff.
  cbn [PyStr.capitalize PyStr.lower].
  now rewrite (lower_upper_char c Hc), lower_idem.
Qed.

(** Lower-casing a word of letters leaves no ASCII character other than
    a lower-case letter. *)
Lemma lower_letters_a_z (s : string) :
  PyStr.all_alpha s = true -> some_char outside_a_z (PyStr.lower s) = false.
Proof.
  induction s as [|c s IH]; [reflexivity|].
  cbn [PyStr.all_alpha PyStr.lower some_char].
  intros [Hc Hs]%andb_true_iff. now rewrite (lower_letter_a_z c Hc), IH.
Qed.

Lemma lower_nonempty (s : string) : s <> "" -> PyStr.lower s <> "".
Proof. destruct s; [congruence | discriminate]. Qed.

Lemma lstrip_lower (s : string) : lstrip (PyStr.lower s) = PyStr.lower (lstrip s).
Proof.
  induction s as [|c s IH]; [reflexivity|].
  cbn [PyStr.lower lstrip]. rewrite isspace_lower_char.
  destruct (isspace_char c); [exact IH | reflexivity].
Qed.

Lemma rstrip_cons (c : ascii) (rest : string) :
  rstrip (String c rest) =
  match rstrip rest with
  | "" => if isspace_char c then "" else String c ""
  | String _ _ as rest' => String c rest'
  end.
Proof. reflexivity. Qed.

Lemma rstrip_lower (s : string) : rstrip (PyStr.lower s) = PyStr.lower (rstrip s).
Proof.
  induction s as [|c s IH]; [reflexivity|].
  cbn [PyStr.lower]. rewrite !rstrip_cons, IH, isspace_lower_char.
  destruct (rstrip s) as [|c' s']; cbn [PyStr.lower].
  - now destruct (isspace_char c).
  - reflexivity.
Qed.

Lemma strip_lower (s : string) : strip (PyStr.lower s) = PyStr.lower (strip s).
Proof. unfold strip. now rewrite lstrip_lower, rstrip_lower. Qed.

Lemma rstrip_idem (s : string) : rstrip (rstrip s) = rstrip s.
Proof.
  induction s as [|c s IH]; [reflexivity|].
  rewrite rstrip_cons. destruct (rstrip s) as [|c' s'] eqn:E.
  - destruct (isspace_char c) eqn:Hc; [reflexivity|].
    rewrite rstrip_cons. cbn [rstrip]. now rewrite Hc.
  - rewrite rstrip_cons, IH. reflexivity.
Qed.

(** A string that does not start with whitespace still does not after
    its trailing whitespace is removed. *)
Lemma lstrip_rstrip (s : string) : lstrip s = s -> lstrip (rstrip s) = rstrip s.
Proof.
  destruct s as [|c s]; [reflexivity|].
  intros H. assert (Hc : isspace_char c = false).
  { cbn [lstrip] in H. destruct (isspace_char c) eqn:Hc; [|reflexivity].
    exfalso. assert (Hlen : String.length (lstrip s) <= String.length s).
    { clear. induction s as [|a s IH]; [reflexivity|]. cbn [lstrip].
      destruct (isspace_char a); cbn; lia. }
    rewrite H in Hlen. cbn in Hlen. lia. }
  rewrite rstrip_cons. destruct (rstrip s) as [|c' s'].
  - rewrite Hc. cbn [lstrip]. now rewrite Hc.
  - cbn [lstrip]. now rewrite Hc.
Qed.

Lemma lstrip_idem (s : string) : lstrip (lstrip s) = lstrip s.
Proof.
  induction s as [|c s IH]; [reflexivity|].
  cbn [lstrip]. destruct (isspace_char c) eqn:Hc; [exact IH|].
  cbn [lstrip]. now rewrite Hc.
Qed.

Lemma strip_idem (s : string) : strip (strip s) = strip s.
Proof.
  unfold strip. rewrite (lstrip_rstrip (lstrip s)) by apply lstrip_idem.
  apply rstrip_idem.
Qed.

(** The substitution leaves the word as it is, or removes the marker that
    ends it, or the marker before the newline that ends it. *)
Lemma re_sub_cases (w : string) :
  re_sub_possessive w = w \/
  w = re_sub_possessive w +:+ "'s" \/
  exists u, w = u +:+ String apostrophe (String "s" (String newline "")) /\
            re_sub_possessive w = u +:+ String newline "".
Proof.
  induction w as [|c w IH]; [now left|]. rewrite re_sub_cons.
  destruct (String.eqb_spec (String c w) "'s") as [->|_];
    [right; now left|].
  destruct (String.eqb_spec (String c w)
              (String apostrophe (String "s" (String newline "")))) as [->|_];
    [right; right; now exists ""|].
  destruct IH as [IH | [IH | (u & Hw & Hu)]].
  - left. now rewrite IH.
  - right. left.
    change (String c (re_sub_possessive w) +:+ "'s")
      with (String c (re_sub_possessive w +:+ "'s")).
    now f_equal.
  - right. right. exists (String c u).
    change (String c u +:+ ?t) with (String c (u +:+ t)).
    split; now f_equal.
Qed.

(** ** The loaded vocabulary *)

Lemma loaded_word_clean (line : string) :
  strip line <> "" ->
  PyStr.lower (strip line) <> "" /\
  strip (PyStr.lower (strip line)) = PyStr.lower (strip line) /\
  PyStr.lower (PyStr.lower (strip line)) = PyStr.lower (strip line).
Proof.
  intros H. split; [now apply lower_nonempty|]. split.
  - now rewrite strip_lower, strip_idem.
  - apply lower_idem.
Qed.

Lemma loaded_word_origin (read_file : string -> ReadResult)
    (file_path : string) (words : list string) (w : string) :
  load_target_words read_file file_path = Loaded words -> w ∈ words ->
  exists line, w = PyStr.lower (strip line) /\ strip line <> "".
Proof.
  unfold load_target_words. destruct (read_file file_path) as [text|e];
    [|discriminate].
  intros [= <-] Hw.
  apply list_elem_of_fmap in Hw as (line & -> & Hline).
  apply list_elem_of_filter in Hline as [Hne _]. now exists line.
Qed.

(** X1: every word that [load_target_words] returns is non-empty, has no
    leading or trailing whitespace, and is in lower case. *)
Theorem load_target_words_clean (read_file : string -> ReadResult)
    (file_path : string) (words : list string) :
  load_target_words read_file file_path = Loaded words ->
  Forall (λ w, w <> "" /\ strip w = w /\ PyStr.lower w = w) words.
Proof.
  intros Hload. apply Forall_forall. intros w Hw.
  destruct (loaded_word_origin _ _ _ _ Hload Hw) as (line & -> & Hne).
  now apply loaded_word_clean.
Qed.

Lemma load_target_words_clean_example :
  Forall (λ w, w <> "" /\ strip w = w /\ PyStr.lower w = w)
    ["harry"; "ron"; "mad-eye"].
Proof.
  apply (load_target_words_clean sample_files "characters"). reflexivity.
Defined.

(** X2: on a loaded vocabulary of ASCII words the display name
    determines the word: lower-casing the capitalised name gives the word
    back, so distinct words get distinct character names.  (Outside ASCII
    two words can share a name: Python capitalises both [ßeta] and
    [sseta] to [Sseta].) *)
Theorem loaded_vocabulary_distinct_names (read_file : string -> ReadResult)
    (file_path : string) (words : list string) :
  load_target_words read_file file_path = Loaded words ->
  Forall (λ w, isascii w = true) words ->
  (forall w, w ∈ words -> PyStr.lower (PyStr.capitalize w) = w) /\
  (NoDup words -> NoDup (PyStr.capitalize <$> words)).
Proof.
  intros Hload Hascii. rewrite Forall_forall in Hascii.
  assert (Hback : forall w, w ∈ words -> PyStr.lower (PyStr.capitalize w) = w).
  { intros w Hw. rewrite (lower_capitalize w (Hascii w Hw)).
    destruct (loaded_word_origin _ _ _ _ Hload Hw) as (line & -> & _).
    apply lower_idem. }
  split; [exact Hback|].
  apply NoDup_fmap_2_strong. intros x y Hx Hy Heq.
  rewrite <- (Hback x Hx), <- (Hback y Hy). now rewrite Heq.
Qed.

Lemma loaded_vocabulary_distinct_names_example :
  NoDup (PyStr.capitalize <$> ["harry"; "ron"; "mad-eye"]).
Proof.
  apply (loaded_vocabulary_distinct_names sample_files "characters");
    [reflexivity | repeat constructor |].
  apply (bool_decide_unpack _). vm_compute. exact I.
Defined.

(** X3: the result of [normalize_word] is unchanged by [lower], and it
    is the lower-casing of a stem obtained from the word by removing at
    most one marker: the word itself, or the word without the ['s] that
    ends it, or the word without the ['s] before the newline that ends
    it. *)
Theorem normalize_word_stem (w : string) :
  PyStr.lower (normalize_word w) = normalize_word w /\
  exists stem,
    normalize_word w = PyStr.lower stem /\
    (stem = w \/
     w = stem +:+ "'s" \/
     exists u, w = u +:+ String apostrophe (String "s" (String newline "")) /\
               stem = u +:+ String newline "").
Proof.
  unfold normalize_word. split; [apply lower_idem|].
  exists (re_sub_possessive w). split; [reflexivity | apply re_sub_cases].
Qed.

(** ** What is counted *)

Lemma normalized_words_lowercased (word_tokenize : string -> list string)
    (text : string) :
  normalized_words word_tokenize text =
  PyStr.lower <$> filter (λ t, PyStr.isalpha t = true) (word_tokenize text).
Proof.
  unfold normalized_words. apply list_fmap_ext. intros i t Ht.
  apply list_elem_of_lookup_2, list_elem_of_filter in Ht as [Ht _].
  now apply normalize_alpha_token.
Qed.

(** A counted word is not empty and holds no ASCII character other than
    a lower-case letter. *)
Lemma normalized_words_shape (word_tokenize : string -> list string)
    (text w : string) :
  w ∈ normalized_words word_tokenize text ->
  w <> "" /\ some_char outside_a_z w = false.
Proof.
  rewrite normalized_words_lowercased.
  intros (t & -> & Ht)%list_elem_of_fmap.
  apply list_elem_of_filter in Ht as [Ht _].
  destruct t as [|c t]; [discriminate Ht|].
  split; [discriminate|]. now apply lower_letters_a_z.
Qed.

Lemma occurrences_fmap (f : string -> string) (w : string) (l : list string) :
  occurrences w (f <$> l) = length (filter (λ t, f t = w) l).
Proof.
  induction l as [|t l IH]; [reflexivity|].
  rewrite fmap_cons, occurrences_cons, filter_cons, IH.
  now destruct (decide (f t = w)).
Qed.

Lemma occurrences_absent (w : string) (l : list string) :
  w ∉ l -> occurrences w l = 0.
Proof.
  intros Hw. unfold occurrences.
  induction l as [|x l IH]; [reflexivity|].
  apply not_elem_of_cons in Hw as [Hne Hw].
  rewrite filter_cons_False by congruence. now apply IH.
Qed.

Lemma count_word_frequencies_entries (word_tokenize : string -> list string)
    (text : string) (target_words : list string) (w : string) :
  count_word_frequencies word_tokenize text target_words !! w =
  if decide (w ∈ target_words)
  then Some (occurrences w (normalized_words word_tokenize text))
  else None.
Proof.
  unfold count_word_frequencies. cbv zeta. rewrite filtered_counts_from.
  destruct (decide (w ∈ target_words)); [|apply lookup_empty].
  now rewrite Counter_get.
Qed.

(** X4: the dictionary returned by [count_word_frequencies] has exactly
    the vocabulary words as keys, and the value of a word is the number
    of alphabetic tokens of the text whose lower-cased form is the word. *)
Theorem count_word_frequencies_lookup (word_tokenize : string -> list string)
    (text : string) (target_words : list string) (w : string) :
  count_word_frequencies word_tokenize text target_words !! w =
  if decide (w ∈ target_words)
  then Some (length (filter (λ t, PyStr.lower t = w /\ PyStr.isalpha t = true)
                       (word_tokenize text)))
  else None.
Proof.
  rewrite count_word_frequencies_entries.
  destruct (decide (w ∈ target_words)); [|reflexivity].
  rewrite normalized_words_lowercased, occurrences_fmap.
  now rewrite list_filter_filter.
Qed.

Lemma unmatched_word_count (word_tokenize : string -> list string)
    (text : string) (target_words : list string) (w : string) :
  w = "" \/ some_char outside_a_z w = true ->
  dict_get (count_word_frequencies word_tokenize text target_words) w 0 = 0.
Proof.
  intros Hw. unfold dict_get. rewrite count_word_frequencies_entries.
  destruct (decide (w ∈ target_words)); [|reflexivity].
  cbn. apply occurrences_absent. intros Hin.
  apply normalized_words_shape in Hin as [Hne Haz].
  destruct Hw as [Hw|Hw]; congruence.
Qed.

(** X5: a vocabulary word that is empty or holds an ASCII character
    other than a lower-case letter (an upper-case letter, a space, a
    hyphen, an apostrophe, a digit) is never counted: its count is 0 for
    every text, and its record is absent in every novel of the table. *)
Theorem unmatched_vocabulary_word_is_absent
    (word_tokenize : string -> list string) (read_file : string -> ReadResult)
    (target_words : list string) (w : string) :
  w = "" \/ some_char outside_a_z w = true ->
  (forall text,
      dict_get (count_word_frequencies word_tokenize text target_words) w 0 = 0) /\
  (forall novel_paths novel_titles i j path title,
      novel_paths !! i = Some path -> novel_titles !! i = Some title ->
      target_words !! j = Some w ->
      records (prepare_plot_data word_tokenize read_file
                 novel_paths novel_titles target_words).1
        !! (i * length target_words + j) =
      Some {| Novel := title; Character := PyStr.capitalize w;
              Frequency := None |}).
Proof.
  intros Hw. split; [intros text; now apply unmatched_word_count|].
  intros novel_paths novel_titles i j path title Hp Ht Hj.
  rewrite (table_lookup _ _ _ _ _ i j path title w Hp Ht Hj).
  unfold entry, looked_up_count, process_novel.
  destruct (read_file path) as [text|e]; cbn [fst].
  - now rewrite unmatched_word_count.
  - reflexivity.
Qed.

Lemma unmatched_vocabulary_word_example :
  records (prepare_plot_data prose_tokenize two_novels
             ["novel1.txt"; "novel2.txt"] ["novel1"; "novel2"]
             ["harry"; "Ron"]).1 !! 3 =
  Some {| Novel := "novel2"; Character := "Ron"; Frequency := None |}.
Proof.
  refine (proj2 (unmatched_vocabulary_word_is_absent prose_tokenize two_novels
                   ["harry"; "Ron"] "Ron" _)
            ["novel1.txt"; "novel2.txt"] ["novel1"; "novel2"] 1 1
            "novel2.txt" "novel2" eq_refl eq_refl eq_refl).
  right. reflexivity.
Defined.

(** ** Table size, diagnostics and the empty table *)

Section TableEdges.
Variable word_tokenize : string -> list string.
Variable read_file : string -> ReadResult.

Local Abbreviation plot_data paths titles words :=
  (prepare_plot_data word_tokenize read_file paths titles words).

Lemma prepare_plot_data_frame (novel_paths novel_titles target_words : list string) :
  (plot_data novel_paths novel_titles target_words).1 =
  pd_DataFrame (zip novel_paths novel_titles ≫=
                  novel_block word_tokenize read_file target_words).
Proof.
  unfold prepare_plot_data. rewrite prepare_loop_spec. reflexivity.
Qed.

Lemma table_length (novel_paths novel_titles target_words : list string) :
  length (records (plot_data novel_paths novel_titles target_words).1) =
  Nat.min (length novel_paths) (length novel_titles) * length target_words.
Proof.
  rewrite prepare_plot_data_records.
  rewrite (bind_blocks_length _ (length target_words)
             (novel_block_length word_tokenize read_file target_words)).
  now rewrite length_zip_with.
Qed.

Lemma table_no_columns (novel_paths novel_titles target_words : list string) :
  (plot_data novel_paths novel_titles target_words).1 = NoColumns <->
  novel_paths = [] \/ novel_titles = [] \/ target_words = [].
Proof.
  pose proof (table_length novel_paths novel_titles target_words) as Hlen.
  rewrite prepare_plot_data_frame in *.
  destruct (zip novel_paths novel_titles ≫= _) as [|r data]; cbn in *.
  - split; [intros _|reflexivity].
    destruct novel_paths, novel_titles, target_words; cbn in Hlen;
      try discriminate; auto.
  - split; [discriminate|].
    intros [-> | [-> | ->]];
      [ | rewrite Nat.min_0_r in Hlen | rewrite Nat.mul_0_r in Hlen ];
      cbn in Hlen; discriminate.
Qed.

(** X6: [zip] pairs paths and titles up to the shorter list, so the table
    has min(|paths|, |titles|) * |vocabulary| records, surplus paths or
    titles being ignored; it is the column-less frame exactly when there
    is no path, no title or no vocabulary word. *)
Theorem prepare_plot_data_size
    (novel_paths novel_titles target_words : list string) :
  length (records (plot_data novel_paths novel_titles target_words).1) =
    Nat.min (length novel_paths) (length novel_titles) * length target_words /\
  ((plot_data novel_paths novel_titles target_words).1 = NoColumns <->
   novel_paths = [] \/ novel_titles = [] \/ target_words = []).
Proof. split; [apply table_length | apply table_no_columns]. Qed.

(** X7: what [prepare_plot_data] prints is one diagnostic per unreadable
    novel, in the order of the novels, whatever the vocabulary and the
    tokenizer; nothing is printed exactly when every paired path is
    readable. *)
Theorem prepare_plot_data_diagnostics
    (novel_paths novel_titles target_words : list string) :
  let diagnostic (novel : string * string) :=
    match read_file novel.1 with
    | ReadError e => Some ("Error reading the file " +:+ novel.1 +:+ ": " +:+ e)
    | ReadOk _ => None
    end in
  (plot_data novel_paths novel_titles target_words).2 =
    omap diagnostic (zip novel_paths novel_titles) /\
  ((plot_data novel_paths novel_titles target_words).2 = [] <->
   forall novel, novel ∈ zip novel_paths novel_titles ->
                 exists text, read_file novel.1 = ReadOk text).
Proof.
  intros diagnostic.
  assert (Hout : (plot_data novel_paths novel_titles target_words).2 =
                 omap diagnostic (zip novel_paths novel_titles)).
  { rewrite prepare_plot_data_output.
    induction (zip novel_paths novel_titles) as [|[path title] novels IH];
      [reflexivity|].
    cbn [mbind list_bind omap list_omap].
    change (list_bind _ _ ?g novels) with (novels ≫= g). rewrite IH.
    unfold novel_output, process_novel, diagnostic. cbn [fst].
    now destruct (read_file path). }
  split; [exact Hout|]. rewrite Hout. clear Hout.
  induction (zip novel_paths novel_titles) as [|[path title] novels IH].
  - split; [|reflexivity]. intros _ novel H. now apply elem_of_nil in H.
  - cbn [omap list_omap]. unfold diagnostic at 1. cbn [fst].
    destruct (read_file path) as [text|e] eqn:E.
    + rewrite IH. split.
      * intros H novel [->|Hin]%elem_of_cons; [now exists text | now apply H].
      * intros H novel Hin. apply H. now right.
    + split; [discriminate|]. intros H.
      destruct (H (path, title)) as [text Ht]; [left|].
      cbn [fst] in Ht. congruence.
Qed.

Lemma run_on_frame (novel_paths novel_titles target_words : list string)
    (top_n : Z) (rows : list FrequencyRecord) :
  (plot_data novel_paths novel_titles target_words).1 = Frame rows ->
  (run word_tokenize read_file novel_paths novel_titles target_words top_n).1 =
  let filtered := filter (λ r, Character r ∈ top_characters rows top_n) rows in
  Returns (dropna (sorted_characters filtered ≫= λ c, group_rows c filtered)).
Proof.
  unfold run. destruct (plot_data _ _ _) as [df out]. cbn [fst].
  now intros ->.
Qed.

Lemma run_on_no_columns (novel_paths novel_titles target_words : list string)
    (top_n : Z) :
  (plot_data novel_paths novel_titles target_words).1 = NoColumns ->
  (run word_tokenize read_file novel_paths novel_titles target_words top_n).1 =
  Raises (KeyError "Character").
Proof.
  unfold run. destruct (plot_data _ _ _) as [df out]. cbn [fst].
  now intros ->.
Qed.

(** X8: the run raises [KeyError] on the Character column exactly when
    the table is empty (no path, no title or no vocabulary word); in
    every other case it reaches the plot and returns. *)
Theorem run_raises_iff_empty_table
    (novel_paths novel_titles target_words : list string) (top_n : Z) :
  ((run word_tokenize read_file novel_paths novel_titles target_words top_n).1
     = Raises (KeyError "Character") <->
   novel_paths = [] \/ novel_titles = [] \/ target_words = []) /\
  ((exists points,
       (run word_tokenize read_file novel_paths novel_titles target_words top_n).1
         = Returns points) <->
   novel_paths <> [] /\ novel_titles <> [] /\ target_words <> []).
Proof.
  pose proof (table_no_columns novel_paths novel_titles target_words) as Hempty.
  destruct ((plot_data novel_paths novel_titles target_words).1)
    as [|rows] eqn:E.
  - rewrite (run_on_no_columns _ _ _ top_n E). split.
    + split; [intros _; now apply Hempty | reflexivity].
    + split; [intros [points H]; discriminate|].
      intros (H1 & H2 & H3). exfalso.
      destruct (proj1 Hempty eq_refl) as [H|[H|H]]; contradiction.
  - rewrite (run_on_frame _ _ _ top_n rows E). cbv zeta.
    assert (Hne : novel_paths <> [] /\ novel_titles <> [] /\ target_words <> []).
    { repeat split; intros ->;
        [discriminate (proj2 Hempty (or_introl eq_refl))
        |discriminate (proj2 Hempty (or_intror (or_introl eq_refl)))
        |discriminate (proj2 Hempty (or_intror (or_intror eq_refl)))]. }
    split.
    + split; [discriminate|].
      intros H. destruct Hne as (H1 & H2 & H3).
      destruct H as [H|[H|H]]; contradiction.
    + split; [intros _; exact Hne | intros _; eexists; reflexivity].
Qed.
End TableEdges.

(** ** Selecting all, none, more, or again *)

Lemma filter_all {A} (P : A -> Prop) `{!forall x, Decision (P x)} (l : list A) :
  (forall x, x ∈ l -> P x) -> filter P l = l.
Proof.
  induction l as [|x l IH]; intros Hall; [reflexivity|].
  rewrite filter_cons_True by (apply Hall; left).
  f_equal. apply IH. intros y Hy. apply Hall. now right.
Qed.

Lemma filter_sublist_impl {A} (P Q : A -> Prop)
    `{!forall x, Decision (P x)} `{!forall x, Decision (Q x)} (l : list A) :
  (forall x, P x -> Q x) -> filter P l `sublist_of` filter Q l.
Proof.
  intros Himpl. induction l as [|x l IH]; [constructor|].
  rewrite !filter_cons. destruct (decide (P x)) as [Hp|Hp].
  - rewrite decide_True by now apply Himpl. now constructor.
  - destruct (decide (Q x)); [now constructor | exact IH].
Qed.

Lemma top_characters_length (rows : list FrequencyRecord) (top_n : Z) :
  length (top_characters rows top_n) <= Z.to_nat top_n.
Proof.
  destruct (Z.le_gt_cases top_n 0) as [Hn|Hn].
  - rewrite (top_characters_nonpositive rows top_n Hn). cbn. lia.
  - rewrite (top_characters_positive rows top_n) by lia.
    rewrite length_fmap, length_take. lia.
Qed.

Lemma character_in_group_keys (rows : list FrequencyRecord) (r : FrequencyRecord) :
  r ∈ rows -> Character r ∈ group_keys rows.
Proof. intros Hr. apply group_keys_elem. now apply list_elem_of_fmap_2. Qed.

(** With room for every character, all of them are selected. *)
Lemma top_characters_all (rows : list FrequencyRecord) (top_n : Z) (c : string) :
  length (group_keys rows) <= Z.to_nat top_n ->
  c ∈ group_keys rows -> c ∈ top_characters rows top_n.
Proof.
  intros Hlen Hc.
  assert (Hpos : (0 < top_n)%Z).
  { destruct (group_keys rows); [now apply elem_of_nil in Hc | cbn in Hlen; lia]. }
  rewrite (top_characters_positive rows top_n Hpos).
  rewrite take_ge.
  - rewrite change_in_frequency_grouped.
    apply sorted_grouped_key. now apply group_keys_elem.
  - now rewrite sort_values_desc_perm, change_in_frequency_grouped, length_fmap.
Qed.

Lemma filter_top_characters_all (rows : list FrequencyRecord) (top_n : Z) :
  length (group_keys rows) <= Z.to_nat top_n ->
  filter_top_characters (Frame rows) top_n = Returns (Frame rows).
Proof.
  intros Hlen. rewrite filter_top_characters_frame. do 2 f_equal.
  apply filter_all. intros r Hr.
  apply top_characters_all; [exact Hlen | now apply character_in_group_keys].
Qed.

(** X9: with [top_n <= 0] the selection is empty and the result is the
    empty frame; with [top_n] at least the number of distinct characters
    the table is returned unchanged. *)
Theorem filter_top_characters_extremes (rows : list FrequencyRecord) (top_n : Z) :
  ((top_n <= 0)%Z ->
   filter_top_characters (Frame rows) top_n = Returns (Frame [])) /\
  (length (group_keys rows) <= Z.to_nat top_n ->
   filter_top_characters (Frame rows) top_n = Returns (Frame rows)).
Proof.
  split; [|apply filter_top_characters_all].
  intros Hn. rewrite filter_top_characters_frame.
  rewrite (top_characters_nonpositive rows top_n Hn). do 2 f_equal.
  induction rows as [|r rows IH]; [reflexivity|].
  rewrite filter_cons_False; [exact IH | apply not_elem_of_nil].
Qed.

Lemma filter_top_characters_extremes_example :
  let rows :=
    [ {| Novel := "novel1"; Character := "Harry"; Frequency := Some 2 |};
      {| Novel := "novel1"; Character := "Ron"; Frequency := None |} ] in
  filter_top_characters (Frame rows) 0 = Returns (Frame []) /\
  filter_top_characters (Frame rows) 2 = Returns (Frame rows).
Proof.
  intros rows. split.
  - apply (proj1 (filter_top_characters_extremes rows 0)). lia.
  - apply (proj2 (filter_top_characters_extremes rows 2)). vm_compute. lia.
Defined.

Lemma top_characters_monotone (rows : list FrequencyRecord) (n m : Z) (c : string) :
  (n <= m)%Z -> c ∈ top_characters rows n -> c ∈ top_characters rows m.
Proof.
  intros Hnm Hc. destruct (Z.le_gt_cases n 0) as [Hn|Hn].
  { rewrite (top_characters_nonpositive rows n Hn) in Hc.
    now apply elem_of_nil in Hc. }
  rewrite (top_characters_positive rows n) in Hc by lia.
  rewrite (top_characters_positive rows m) by lia.
  rewrite fmap_take in *.
  replace (Z.to_nat n) with (Nat.min (Z.to_nat n) (Z.to_nat m)) in Hc by lia.
  rewrite <- take_take in Hc. now apply subseteq_take in Hc.
Qed.

(** X10: the selection grows with [top_n]: the result for a smaller N is
    a sublist of the result for a larger one. *)
Theorem filter_top_characters_monotone (rows : list FrequencyRecord) (n m : Z)
    (out_n out_m : list FrequencyRecord) :
  (n <= m)%Z ->
  filter_top_characters (Frame rows) n = Returns (Frame out_n) ->
  filter_top_characters (Frame rows) m = Returns (Frame out_m) ->
  out_n `sublist_of` out_m.
Proof.
  intros Hnm. rewrite !filter_top_characters_frame. intros [= <-] [= <-].
  apply filter_sublist_impl. intros r. now apply top_characters_monotone.
Qed.

Lemma filter_top_characters_monotone_example :
  let rows :=
    [ {| Novel := "novel1"; Character := "Harry"; Frequency := Some 2 |};
      {| Novel := "novel1"; Character := "Ron"; Frequency := Some 1 |};
      {| Novel := "novel2"; Character := "Harry"; Frequency := Some 5 |};
      {| Novel := "novel2"; Character := "Ron"; Frequency := Some 1 |} ] in
  [ {| Novel := "novel1"; Character := "Harry"; Frequency := Some 2 |};
    {| Novel := "novel2"; Character := "Harry"; Frequency := Some 5 |} ]
    `sublist_of` rows.
Proof.
  intros rows.
  apply (filter_top_characters_monotone rows 1 2); [lia | reflexivity..].
Defined.

(** With [top_n] positive, a table that has rows has a selected
    character. *)
Lemma top_characters_nonempty (rows : list FrequencyRecord) (top_n : Z) :
  (0 < top_n)%Z -> rows <> [] ->
  exists r, r ∈ rows /\ Character r ∈ top_characters rows top_n.
Proof.
  intros Hn Hrows. rewrite (top_characters_positive rows top_n Hn).
  rewrite change_in_frequency_grouped.
  destruct (sort_values_desc ((λ k, (k, spread_of rows k)) <$> group_keys rows))
    as [|e l] eqn:E.
  - exfalso. apply (f_equal length) in E.
    rewrite sort_values_desc_perm, length_fmap in E.
    destruct rows as [|r rows]; [contradiction|].
    pose proof (character_in_group_keys (r :: rows) r (list_elem_of_here _ _)) as Hr.
    destruct (group_keys (r :: rows)); [now apply elem_of_nil in Hr | discriminate E].
  - assert (He : e.1 ∈ Character <$> rows).
    { apply (sorted_grouped_key rows (spread_of rows)). rewrite E. left. }
    apply list_elem_of_fmap in He as (r & He & Hr).
    exists r. split; [exact Hr|]. rewrite <- He.
    destruct (Z.to_nat top_n) eqn:En; [lia|]. left.
Qed.

(** X11: on a table that has rows and with [top_n] at least 1, the result
    of [filter_top_characters] has rows, and selecting again changes
    nothing: applied to its own result with the same N it returns that
    result. *)
Theorem filter_top_characters_idempotent (rows : list FrequencyRecord)
    (top_n : Z) (out : list FrequencyRecord) :
  (0 < top_n)%Z -> rows <> [] ->
  filter_top_characters (Frame rows) top_n = Returns (Frame out) ->
  out <> [] /\
  filter_top_characters (Frame out) top_n = Returns (Frame out).
Proof.
  intros Hn Hrows. rewrite filter_top_characters_frame. intros [= <-].
  split.
  { destruct (top_characters_nonempty rows top_n Hn Hrows) as (r & Hr & Hsel).
    intros Hnil.
    assert (Hin : r ∈ filter (λ r, Character r ∈ top_characters rows top_n) rows)
      by (apply list_elem_of_filter; now split).
    rewrite Hnil in Hin. now apply elem_of_nil in Hin. }
  apply filter_top_characters_all.
  etrans; [|apply (top_characters_length rows top_n)].
  apply submseteq_length, NoDup_submseteq; [apply group_keys_NoDup|].
  intros c Hc. apply group_keys_elem in Hc.
  apply list_elem_of_fmap in Hc as (r & -> & Hr).
  now apply list_elem_of_filter in Hr as [Hsel _].
Qed.

Lemma filter_top_characters_idempotent_example :
  let out :=
    [ {| Novel := "novel1"; Character := "Harry"; Frequency := Some 2 |};
      {| Novel := "novel2"; Character := "Harry"; Frequency := Some 5 |} ] in
  filter_top_characters (Frame out) 1 = Returns (Frame out).
Proof.
  intros out.
  apply (filter_top_characters_idempotent
           [ {| Novel := "novel1"; Character := "Harry"; Frequency := Some 2 |};
             {| Novel := "novel1"; Character := "Ron"; Frequency := Some 1 |};
             {| Novel := "novel2"; Character := "Harry"; Frequency := Some 5 |};
             {| Novel := "novel2"; Character := "Ron"; Frequency := Some 1 |} ]
           1 out); [lia | discriminate | reflexivity].
Defined.

(** ** Ordering keeps the groups and is stable under repetition *)

Lemma group_rows_absent (rows : list FrequencyRecord) (c : string) :
  c ∉ Character <$> rows -> group_rows c rows = [].
Proof.
  intros Hc. unfold group_rows. induction rows as [|r rows IH]; [reflexivity|].
  rewrite fmap_cons in Hc. apply not_elem_of_cons in Hc as [Hne Hc].
  rewrite filter_cons_False by congruence. now apply IH.
Qed.

Lemma group_rows_group (rows : list FrequencyRecord) (c k : string) :
  group_rows c (group_rows k rows) =
  if decide (c = k) then group_rows k rows else [].
Proof.
  unfold group_rows. rewrite list_filter_filter.
  destruct (decide (c = k)) as [->|Hne].
  - apply list_filter_iff. tauto.
  - induction rows as [|r rows IH]; [reflexivity|].
    rewrite filter_cons_False; [exact IH|]. intros [H1 H2]. congruence.
Qed.

Lemma group_rows_bind (rows : list FrequencyRecord) (chars : list string)
    (c : string) :
  NoDup chars ->
  group_rows c (chars ≫= λ c', group_rows c' rows) =
  if decide (c ∈ chars) then group_rows c rows else [].
Proof.
  induction 1 as [|k ks Hk Hnd IH].
  - now rewrite decide_False by apply not_elem_of_nil.
  - cbn [mbind list_bind].
    change (list_bind _ _ ?g ks) with (ks ≫= g).
    unfold group_rows at 1. rewrite filter_app.
    fold (group_rows c (group_rows k rows)).
    fold (group_rows c (ks ≫= λ c', group_rows c' rows)).
    rewrite group_rows_group, IH.
    destruct (decide (c = k)) as [->|Hne].
    + rewrite (decide_False (P := k ∈ ks)) by exact Hk.
      rewrite (decide_True (P := k ∈ k :: ks)) by left.
      apply app_nil_r.
    + destruct (decide (c ∈ ks)) as [Hin|Hout].
      * rewrite decide_True by now right. reflexivity.
      * rewrite decide_False; [reflexivity|].
        intros [?|?]%elem_of_cons; contradiction.
Qed.

Lemma str_lt_asym (a b : string) : str_lt a b -> str_lt b a -> a = b.
Proof.
  intros H1 H2. destruct (str_lt_irrefl a). exact (str_lt_trans a b a H1 H2).
Qed.

(** The group keys depend only on which characters occur. *)
Lemma group_keys_same (a b : list FrequencyRecord) :
  (forall c, c ∈ Character <$> a <-> c ∈ Character <$> b) ->
  group_keys a = group_keys b.
Proof.
  intros Hsame.
  apply (StronglySorted_unique_strong str_lt).
  - intros x y _ _. apply str_lt_asym.
  - apply group_keys_sorted.
  - apply group_keys_sorted.
  - apply NoDup_Permutation; [apply group_keys_NoDup..|].
    intros c. now rewrite !group_keys_elem.
Qed.

Lemma sorted_characters_NoDup (rows : list FrequencyRecord) :
  NoDup (sorted_characters rows).
Proof.
  unfold sorted_characters. rewrite max_appearance_grouped.
  apply sorted_grouped_keys_NoDup.
Qed.

Lemma sorted_characters_elem (rows : list FrequencyRecord) (c : string) :
  c ∈ sorted_characters rows <-> c ∈ Character <$> rows.
Proof.
  unfold sorted_characters. rewrite max_appearance_grouped.
  apply sorted_grouped_key.
Qed.

Lemma ordered_groups (rows : list FrequencyRecord) (c : string) :
  group_rows c (sorted_characters rows ≫= λ c', group_rows c' rows) =
  group_rows c rows.
Proof.
  rewrite group_rows_bind by apply sorted_characters_NoDup.
  destruct (decide (c ∈ sorted_characters rows)) as [_|Hout]; [reflexivity|].
  symmetry. apply group_rows_absent. now rewrite <- sorted_characters_elem.
Qed.

Lemma ordered_perm (rows : list FrequencyRecord) :
  (sorted_characters rows ≫= λ c, group_rows c rows) ≡ₚ rows.
Proof.
  apply group_by_keys_perm; [apply sorted_characters_NoDup|].
  intros r Hr. apply sorted_characters_elem. now apply list_elem_of_fmap_2.
Qed.

Lemma sorted_characters_ordered (rows : list FrequencyRecord) :
  sorted_characters (sorted_characters rows ≫= λ c, group_rows c rows) =
  sorted_characters rows.
Proof.
  set (ordered := sorted_characters rows ≫= λ c, group_rows c rows).
  assert (Hkeys : group_keys ordered = group_keys rows).
  { apply group_keys_same. intros c. subst ordered.
    now rewrite (ordered_perm rows). }
  unfold sorted_characters, max_appearance. rewrite Hkeys.
  do 2 f_equal. apply list_fmap_ext. intros i k _.
  unfold group_values. subst ordered. now rewrite ordered_groups.
Qed.

(** X12: ordering keeps, for every character, its records in their
    original order, leaves the character order unchanged when applied
    again, and is therefore idempotent. *)
Theorem order_characters_idempotent (rows ordered : list FrequencyRecord) :
  order_characters_by_max_appearance (Frame rows) = Returns (Frame ordered) ->
  (forall c, group_rows c ordered = group_rows c rows) /\
  sorted_characters ordered = sorted_characters rows /\
  order_characters_by_max_appearance (Frame ordered) = Returns (Frame ordered).
Proof.
  cbn [order_characters_by_max_appearance]. intros [= <-].
  split; [apply ordered_groups|]. split; [apply sorted_characters_ordered|].
  rewrite sorted_characters_ordered. do 2 f_equal.
  apply list_bind_ext; [|reflexivity]. intros c. apply ordered_groups.
Qed.

Lemma order_characters_idempotent_example :
  let ordered :=
    [ {| Novel := "novel1"; Character := "Ron"; Frequency := Some 3 |};
      {| Novel := "novel2"; Character := "Ron"; Frequency := Some 1 |};
      {| Novel := "novel1"; Character := "Harry"; Frequency := Some 2 |};
      {| Novel := "novel2"; Character := "Harry"; Frequency := None |} ] in
  order_characters_by_max_appearance (Frame ordered) = Returns (Frame ordered).
Proof.
  intros ordered.
  apply (order_characters_idempotent
           [ {| Novel := "novel1"; Character := "Harry"; Frequency := Some 2 |};
             {| Novel := "novel1"; Character := "Ron"; Frequency := Some 3 |};
             {| Novel := "novel2"; Character := "Harry"; Frequency := None |};
             {| Novel := "novel2"; Character := "Ron"; Frequency := Some 1 |} ]).
  reflexivity.
Defined.

(** ** The legend *)

Lemma unique_elem (l : list string) (x : string) : x ∈ unique l <-> x ∈ l.
Proof.
  induction l as [|y l IH]; [reflexivity|].
  cbn [unique]. rewrite !elem_of_cons, list_elem_of_filter, IH.
  destruct (decide (x = y)); tauto.
Qed.

Lemma unique_block (k : string) (l1 l2 : list string) :
  (forall x, x ∈ l1 -> x = k) -> k ∉ l2 ->
  unique (l1 ++ l2) =
  (match l1 with [] => [] | _ :: _ => [k] end ++ unique l2)%list.
Proof.
  intros Hk Hout. induction l1 as [|x l1 IH]; [reflexivity|].
  assert (x = k) as -> by (apply Hk; left).
  cbn [app unique]. rewrite IH by (intros y Hy; apply Hk; now right).
  f_equal. rewrite filter_app.
  replace (filter (λ y, y <> k) match l1 with [] => [] | _ :: _ => [k] end)
    with (@nil string).
  - cbn [app]. apply filter_all. intros y Hy Heq. subst y.
    apply (proj1 (unique_elem _ _)) in Hy. contradiction.
  - destruct l1; [reflexivity|]. now rewrite filter_cons_False by tauto.
Qed.

Lemma dropna_bind (chars : list string) (g : string -> list FrequencyRecord) :
  dropna (chars ≫= g) = chars ≫= λ c, dropna (g c).
Proof.
  unfold dropna. induction chars as [|c chars IH]; [reflexivity|].
  cbn [mbind list_bind]. change (list_bind _ _ ?h chars) with (chars ≫= h).
  now rewrite filter_app, IH.
Qed.

Lemma series_max_present (x : list (option nat)) :
  is_Some (series_max x) <-> exists v, Some v ∈ x.
Proof.
  unfold series_max. induction x as [|[a|] x IH]; cbn [foldr].
  - split; [intros [? H]; discriminate | intros [v H]; now apply elem_of_nil in H].
  - split; [intros _; exists a; left|intros _].
    destruct (foldr (skipna Nat.max) None x); cbn; eauto.
  - cbn [skipna]. rewrite IH. split; intros [v H]; exists v.
    + now right.
    + apply elem_of_cons in H as [H|H]; [discriminate | exact H].
Qed.

(** A character has a maximum exactly when one of its records survives
    the cleaning. *)
Lemma max_of_present (rows : list FrequencyRecord) (c : string) :
  is_Some (max_of rows c) <-> dropna (group_rows c rows) <> [].
Proof.
  unfold max_of. rewrite series_max_present. unfold group_values. split.
  - intros (v & Hv). apply list_elem_of_fmap in Hv as (r & Hr & Hin).
    intros Hnil.
    assert (Hd : r ∈ dropna (group_rows c rows)).
    { apply list_elem_of_filter. split; [rewrite <- Hr; eauto | exact Hin]. }
    rewrite Hnil in Hd. now apply elem_of_nil in Hd.
  - intros Hne. destruct (dropna (group_rows c rows)) as [|r l] eqn:E;
      [contradiction|].
    assert (Hd : r ∈ dropna (group_rows c rows)) by (rewrite E; left).
    apply list_elem_of_filter in Hd as [[v Hv] Hin].
    exists v. rewrite <- Hv. now apply list_elem_of_fmap_2.
Qed.

Lemma hue_order_blocks (rows : list FrequencyRecord) (chars : list string) :
  NoDup chars ->
  hue_order (chars ≫= λ c, dropna (group_rows c rows)) =
  filter (λ c, is_Some (max_of rows c)) chars.
Proof.
  unfold hue_order. induction 1 as [|k ks Hk Hnd IH]; [reflexivity|].
  cbn [mbind list_bind]. change (list_bind _ _ ?h ks) with (ks ≫= h).
  rewrite fmap_app, (unique_block k), IH.
  - rewrite filter_cons.
    destruct (decide (is_Some (max_of rows k))) as [Hs|Hs];
      rewrite max_of_present in Hs.
    + destruct (dropna (group_rows k rows)); [contradiction | reflexivity].
    + destruct (dropna (group_rows k rows)) as [|r l]; [reflexivity|].
      destruct Hs. discriminate.
  - intros x (r & -> & Hr)%list_elem_of_fmap.
    apply list_elem_of_filter in Hr as [_ Hr].
    now apply list_elem_of_filter in Hr as [Hc _].
  - intros (r & Hkr & Hr)%list_elem_of_fmap.
    apply list_elem_of_bind in Hr as (c & Hr & Hc).
    apply list_elem_of_filter in Hr as [_ Hr].
    apply list_elem_of_filter in Hr as [Hcr _]. congruence.
Qed.

Lemma hue_order_ordered (rows : list FrequencyRecord) :
  hue_order (dropna (sorted_characters rows ≫= λ c, group_rows c rows)) =
  filter (λ c, is_Some (max_of rows c)) (sorted_characters rows).
Proof.
  rewrite dropna_bind. apply hue_order_blocks, sorted_characters_NoDup.
Qed.

(** X13: the legend of the plot lists the characters that have at least
    one present frequency, each once, in the order set by the orderer:
    by non-increasing maximum, as the comment on [hue_order] says. *)
Theorem legend_follows_maximum (rows ordered points : list FrequencyRecord) :
  order_characters_by_max_appearance (Frame rows) = Returns (Frame ordered) ->
  plot_character_frequencies (Frame ordered) = Returns points ->
  hue_order points =
    filter (λ c, is_Some (max_of rows c)) (sorted_characters rows) /\
  NoDup (hue_order points) /\
  StronglySorted (λ c c', not_below (max_of rows c) (max_of rows c'))
    (hue_order points).
Proof.
  cbn [order_characters_by_max_appearance plot_character_frequencies].
  intros [= <-] [= <-]. rewrite hue_order_ordered.
  split; [reflexivity|]. split.
  - eapply sublist_NoDup; [apply sorted_characters_NoDup | apply sublist_filter].
  - apply filter_sorted, sorted_characters_not_below.
Qed.

Lemma legend_follows_maximum_example :
  hue_order
    [ {| Novel := "novel1"; Character := "Ron"; Frequency := Some 3 |};
      {| Novel := "novel2"; Character := "Ron"; Frequency := Some 1 |};
      {| Novel := "novel1"; Character := "Harry"; Frequency := Some 2 |} ] =
  ["Ron"; "Harry"].
Proof.
  refine (proj1 (legend_follows_maximum
            [ {| Novel := "novel1"; Character := "Harry"; Frequency := Some 2 |};
              {| Novel := "novel1"; Character := "Ron"; Frequency := Some 3 |};
              {| Novel := "novel1"; Character := "Snape"; Frequency := None |};
              {| Novel := "novel2"; Character := "Harry"; Frequency := None |};
              {| Novel := "novel2"; Character := "Ron"; Frequency := Some 1 |};
              {| Novel := "novel2"; Character := "Snape"; Frequency := None |} ]
            _ _ eq_refl eq_refl)).
Defined.

(** ** What reaches the plot *)

Section PlottedPoints.
Variable word_tokenize : string -> list string.
Variable read_file : string -> ReadResult.

Local Abbreviation plot_data paths titles words :=
  (prepare_plot_data word_tokenize read_file paths titles words).
Local Abbreviation run_of paths titles words top_n :=
  (run word_tokenize read_file paths titles words top_n).

Lemma run_returns (novel_paths novel_titles target_words : list string)
    (top_n : Z) (points : list FrequencyRecord) :
  (run_of novel_paths novel_titles target_words top_n).1 = Returns points ->
  let rows := records (plot_data novel_paths novel_titles target_words).1 in
  let filtered := filter (λ r, Character r ∈ top_characters rows top_n) rows in
  points = dropna (sorted_characters filtered ≫= λ c, group_rows c filtered).
Proof.
  destruct ((plot_data novel_paths novel_titles target_words).1)
    as [|rows] eqn:E.
  - rewrite (run_on_no_columns _ _ _ _ _ top_n E). discriminate.
  - rewrite (run_on_frame _ _ _ _ _ top_n rows E). cbv zeta.
    cbn [records]. now intros [= <-].
Qed.

Lemma run_output (novel_paths novel_titles target_words : list string) (top_n : Z) :
  (run_of novel_paths novel_titles target_words top_n).2 =
  (plot_data novel_paths novel_titles target_words).2.
Proof. unfold run. now destruct (plot_data _ _ _). Qed.

Lemma run_hue_length (novel_paths novel_titles target_words : list string)
    (top_n : Z) (points : list FrequencyRecord) :
  (run_of novel_paths novel_titles target_words top_n).1 = Returns points ->
  length (hue_order points) <= Z.to_nat top_n.
Proof.
  intros Hrun. rewrite (run_returns _ _ _ _ _ Hrun). cbv zeta.
  set (rows := records (plot_data novel_paths novel_titles target_words).1).
  set (filtered := filter (λ r, Character r ∈ top_characters rows top_n) rows).
  rewrite hue_order_ordered.
  etrans; [apply length_filter|].
  etrans; [|apply (top_characters_length rows top_n)].
  apply submseteq_length, NoDup_submseteq; [apply sorted_characters_NoDup|].
  intros c Hc. apply sorted_characters_elem in Hc.
  apply list_elem_of_fmap in Hc as (r & -> & Hr).
  now apply list_elem_of_filter in Hr as [Hsel _].
Qed.

(** X14: a run never plots more than [top_n] lines: the legend has at
    most [top_n] characters (the ten colours of the palette suffice for
    the script's top_n = 10), and each of them is a selected character
    with a plotted point. *)
Theorem run_plots_at_most_top_n_lines
    (novel_paths novel_titles target_words : list string)
    (top_n : Z) (points : list FrequencyRecord) :
  (run_of novel_paths novel_titles target_words top_n).1 = Returns points ->
  length (hue_order points) <= Z.to_nat top_n /\
  forall c, c ∈ hue_order points <->
            exists r, r ∈ points /\ Character r = c /\
                      Character r ∈ top_characters
                        (records (plot_data novel_paths novel_titles
                                    target_words).1) top_n.
Proof.
  intros Hrun. split; [exact (run_hue_length _ _ _ _ _ Hrun)|].
  intros c. unfold hue_order. rewrite unique_elem, list_elem_of_fmap.
  pose proof (run_returns _ _ _ _ _ Hrun) as Hpts. cbv zeta in Hpts.
  split.
  - intros (r & -> & Hr). exists r. split; [exact Hr|]. split; [reflexivity|].
    rewrite Hpts in Hr. apply list_elem_of_filter in Hr as [_ Hr].
    apply list_elem_of_bind in Hr as (c & Hr & _).
    apply list_elem_of_filter in Hr as [_ Hr].
    now apply list_elem_of_filter in Hr as [Hsel _].
  - intros (r & Hr & <- & _). now exists r.
Qed.

(** X15: the plotted points are, up to order, exactly the records of the
    table that have a present frequency and a selected character: the
    pipeline loses none of them, repeats none and adds none. *)
Theorem plotted_points_are_selected_present_records
    (novel_paths novel_titles target_words : list string)
    (top_n : Z) (points : list FrequencyRecord) :
  (run_of novel_paths novel_titles target_words top_n).1 = Returns points ->
  let rows := records (plot_data novel_paths novel_titles target_words).1 in
  points ≡ₚ
  filter (λ r, is_Some (Frequency r) /\ Character r ∈ top_characters rows top_n)
    rows.
Proof.
  intros Hrun rows. rewrite (run_returns _ _ _ _ _ Hrun). cbv zeta.
  fold rows. unfold dropna. rewrite ordered_perm.
  now rewrite list_filter_filter.
Qed.
End PlottedPoints.

Lemma run_plots_at_most_top_n_lines_example :
  length (hue_order
            [ {| Novel := "novel1"; Character := "Harry"; Frequency := Some 2 |};
              {| Novel := "novel2"; Character := "Harry"; Frequency := Some 1 |} ])
  <= Z.to_nat 1.
Proof.
  apply (proj1 (run_plots_at_most_top_n_lines prose_tokenize two_novels
           ["novel1.txt"; "novel2.txt"] ["novel1"; "novel2"] ["harry"; "ron"] 1
           _ eq_refl)).
Defined.

Lemma plotted_points_example :
  [ {| Novel := "novel1"; Character := "Harry"; Frequency := Some 2 |};
    {| Novel := "novel2"; Character := "Harry"; Frequency := Some 1 |} ] ≡ₚ
  filter (λ r, is_Some (Frequency r) /\
               Character r ∈ top_characters
                 (records (prepare_plot_data prose_tokenize two_novels
                             ["novel1.txt"; "novel2.txt"] ["novel1"; "novel2"]
                             ["harry"; "ron"]).1) 1)
    (records (prepare_plot_data prose_tokenize two_novels
                ["novel1.txt"; "novel2.txt"] ["novel1"; "novel2"]
                ["harry"; "ron"]).1).
Proof.
  apply (plotted_points_are_selected_present_records prose_tokenize two_novels
           ["novel1.txt"; "novel2.txt"] ["novel1"; "novel2"] ["harry"; "ron"] 1).
  reflexivity.
Defined.

(** ** The spreads *)

Lemma skipna_fold_none (f : nat -> nat -> nat) (x : list (option nat)) :
  foldr (skipna f) None x = None <-> omap id x = [].
Proof.
  split; [|apply skipna_none].
  induction x as [|[a|] x IH]; cbn; [reflexivity| |exact IH].
  destruct (foldr (skipna f) None x); discriminate.
Qed.

Lemma series_min_le_max (x : list (option nat)) (lo hi : nat) :
  series_min x = Some lo -> series_max x = Some hi -> lo <= hi.
Proof.
  unfold series_min, series_max. revert lo hi.
  induction x as [|[a|] x IH]; intros lo hi; cbn [foldr];
    [discriminate| |apply IH].
  destruct (foldr (skipna Nat.min) None x) as [lo'|] eqn:Emin;
    destruct (foldr (skipna Nat.max) None x) as [hi'|] eqn:Emax; cbn.
  - intros [= <-] [= <-]. specialize (IH lo' hi' eq_refl eq_refl). lia.
  - apply skipna_fold_none in Emax. apply (skipna_none Nat.min) in Emax.
    congruence.
  - apply skipna_fold_none in Emin. apply (skipna_none Nat.max) in Emin.
    congruence.
  - intros [= <-] [= <-]. lia.
Qed.

Lemma spread_defined (x : list (option nat)) (d : Z) :
  spread x = Some d ->
  exists hi, series_max x = Some hi /\ (0 <= d <= Z.of_nat hi)%Z.
Proof.
  unfold spread.
  destruct (series_max x) as [hi|] eqn:Emax; [|discriminate].
  destruct (series_min x) as [lo|] eqn:Emin; [|discriminate].
  intros [= <-]. exists hi. split; [reflexivity|].
  pose proof (series_min_le_max x lo hi Emin Emax). lia.
Qed.

Lemma spread_undefined (x : list (option nat)) :
  spread x = None -> omap id x = [].
Proof.
  unfold spread.
  destruct (series_max x) as [hi|] eqn:Emax.
  - destruct (series_min x) as [lo|] eqn:Emin; [discriminate|].
    intros _. now apply (skipna_fold_none Nat.min).
  - intros _. now apply (skipna_fold_none Nat.max).
Qed.

Lemma omap_id_nil (x : list (option nat)) :
  omap id x = [] -> forall v, v ∈ x -> v = None.
Proof.
  induction x as [|[a|] x IH]; cbn; intros H v Hv.
  - now apply elem_of_nil in Hv.
  - discriminate.
  - apply elem_of_cons in Hv as [->|Hv]; [reflexivity | now apply IH].
Qed.

(** X16: [calculate_change_in_frequency] yields one entry per distinct
    character, in ascending name order; a spread is never negative and
    never exceeds the character's maximum, and it is undefined exactly
    for a character whose frequency is absent in all its records. *)
Theorem calculate_change_in_frequency_entries (rows : list FrequencyRecord) :
  exists max_min_diff,
    calculate_change_in_frequency (Frame rows) = Returns max_min_diff /\
    StronglySorted str_lt max_min_diff.*1 /\
    (forall c, c ∈ max_min_diff.*1 <-> c ∈ Character <$> rows) /\
    (forall c v, (c, v) ∈ max_min_diff ->
       match v with
       | Some d =>
           exists hi, max_of rows c = Some hi /\ (0 <= d <= Z.of_nat hi)%Z
       | None =>
           forall r, r ∈ rows -> Character r = c -> Frequency r = None
       end).
Proof.
  exists (change_in_frequency rows). split; [reflexivity|].
  rewrite change_in_frequency_grouped, grouped_keys.
  split; [apply group_keys_sorted|]. split; [apply group_keys_elem|].
  intros c v [_ ->]%grouped_elem. unfold spread_of.
  destruct (spread (group_values c rows)) as [d|] eqn:E.
  - now apply spread_defined.
  - intros r Hr Hc. apply spread_undefined in E.
    apply (omap_id_nil _ E). unfold group_values.
    apply list_elem_of_fmap_2, list_elem_of_filter. now split.
Qed.

(** ** The main block *)

Lemma output_length (word_tokenize : string -> list string)
    (read_file : string -> ReadResult)
    (novel_paths novel_titles target_words : list string) :
  length (prepare_plot_data word_tokenize read_file
            novel_paths novel_titles target_words).2 <=
  length (zip novel_paths novel_titles).
Proof.
  rewrite prepare_plot_data_output.
  induction (zip novel_paths novel_titles) as [|[path title] novels IH];
    [reflexivity|].
  cbn [mbind list_bind]. change (list_bind _ _ ?g novels) with (novels ≫= g).
  rewrite length_app. unfold novel_output at 1, process_novel. cbn [fst].
  destruct (read_file path); cbn [snd length]; lia.
Qed.

Lemma filter_none {A} (P : A -> Prop) `{!forall x, Decision (P x)} (l : list A) :
  (forall x, x ∈ l -> ~ P x) -> filter P l = [].
Proof.
  induction l as [|x l IH]; intros Hall; [reflexivity|].
  rewrite filter_cons_False by (apply Hall; left).
  apply IH. intros y Hy. apply Hall. now right.
Qed.

Lemma run_reaches_plot (word_tokenize : string -> list string)
    (read_file : string -> ReadResult)
    (novel_paths novel_titles target_words : list string) (top_n : Z) :
  novel_paths <> [] -> novel_titles <> [] -> target_words <> [] ->
  exists points,
    (run word_tokenize read_file novel_paths novel_titles target_words top_n).1 =
    Returns points.
Proof.
  intros Hp Ht Hw.
  destruct ((prepare_plot_data word_tokenize read_file
               novel_paths novel_titles target_words).1) as [|rows] eqn:E.
  - apply table_no_columns in E as [?|[?|?]]; contradiction.
  - rewrite (run_on_frame _ _ _ _ _ top_n rows E). eexists. reflexivity.
Qed.

Lemma main_ran (word_tokenize : string -> list string)
    (read_file : string -> ReadResult) (words : list string) :
  load_target_words read_file characters_file_path = Loaded words ->
  main word_tokenize read_file =
  Ran (run word_tokenize read_file novel_paths novel_titles words 10).1
      (run word_tokenize read_file novel_paths novel_titles words 10).2.
Proof.
  unfold main. intros ->.
  now destruct (run word_tokenize read_file novel_paths novel_titles words 10).
Qed.

(** X17: the main block has three outcomes.  If the characters file
    cannot be read, the exception ends the program before any novel is
    opened.  If the file holds only blank lines, the run ends in a
    [KeyError] on the Character column.  Otherwise the run reaches the
    plot, with at most ten lines and at most four diagnostics printed. *)
Theorem main_outcomes (word_tokenize : string -> list string)
    (read_file : string -> ReadResult) :
  (forall e,
      read_file characters_file_path = ReadError e ->
      main word_tokenize read_file = VocabularyRaises e) /\
  (forall text,
      read_file characters_file_path = ReadOk text ->
      (forall line, line ∈ file_lines text -> strip line = "") ->
      exists out,
        main word_tokenize read_file = Ran (Raises (KeyError "Character")) out) /\
  (forall text line,
      read_file characters_file_path = ReadOk text ->
      line ∈ file_lines text -> strip line <> "" ->
      exists points out,
        main word_tokenize read_file = Ran (Returns points) out /\
        length (hue_order points) <= 10 /\ length out <= 4).
Proof.
  split; [|split].
  - intros e He. unfold main, load_target_words. now rewrite He.
  - intros text Htext Hblank.
    assert (Hload : load_target_words read_file characters_file_path = Loaded []).
    { unfold load_target_words. rewrite Htext.
      rewrite filter_none; [reflexivity|].
      intros line Hline Hne. now apply Hne, Hblank. }
    rewrite (main_ran _ _ _ Hload). eexists.
    rewrite run_on_no_columns; [reflexivity|].
    apply table_no_columns. auto.
  - intros text line Htext Hline Hne.
    set (words := (λ l, PyStr.lower (strip l)) <$>
                    filter (λ l, strip l <> "") (file_lines text)).
    assert (Hload : load_target_words read_file characters_file_path =
                    Loaded words).
    { unfold load_target_words. now rewrite Htext. }
    assert (Hwords : words <> []).
    { intros Hnil. apply fmap_nil_inv in Hnil.
      assert (Hin : line ∈ filter (λ l, strip l <> "") (file_lines text))
        by (apply list_elem_of_filter; now split).
      rewrite Hnil in Hin. now apply elem_of_nil in Hin. }
    destruct (run_reaches_plot word_tokenize read_file
                novel_paths novel_titles words 10) as [points Hpoints];
      [discriminate | discriminate | exact Hwords |].
    rewrite (main_ran _ _ _ Hload), Hpoints.
    do 2 eexists. split; [reflexivity|]. split.
    + exact (run_hue_length _ _ _ _ _ _ _ Hpoints).
    + rewrite run_output. etrans; [apply output_length|]. reflexivity.
Qed.

Lemma main_outcomes_example :
  exists points out,
    main prose_tokenize sample_files = Ran (Returns points) out /\
    length (hue_order points) <= 10 /\ length out <= 4.
Proof.
  apply (proj2 (proj2 (main_outcomes prose_tokenize sample_files))
           ("  Harry " +:+ String newline "" +:+ String newline "" +:+
            "RON" +:+ String newline "" +:+ "mad-eye")
           "mad-eye").
  - reflexivity.
  - apply (bool_decide_unpack _). vm_compute. exact I.
  - discriminate.
Defined.
